(** * hamt-ts: a persistent hash array mapped trie

    A shallow embedding of [src/hamt.ts] and the verification of its
    map laws and structural invariants.

    JavaScript numbers are modelled as [Z]: every number the program
    handles is an integer far below 2^53, so double arithmetic on it is
    exact.  The bitwise operators first convert their operands to 32-bit
    integers, which is written out below.  Keys are [string]s, whose
    characters stand for the UTF-16 code units that [charCodeAt] reads. *)

From Stdlib Require Import ZArith List String Ascii Bool Lia.
Import ListNotations.
Open Scope Z_scope.

(** ** JavaScript 32-bit integer operators *)

Module JS.

Definition ToInt32 (x : Z) : Z := (x + 2^31) mod 2^32 - 2^31.
Definition ToUint32 (x : Z) : Z := x mod 2^32.

(** [a & b], [a | b], [a ^ b], [~a]: signed 32-bit results. *)
Definition and (a b : Z) : Z := Z.land (ToInt32 a) (ToInt32 b).
Definition or (a b : Z) : Z := Z.lor (ToInt32 a) (ToInt32 b).
Definition xor (a b : Z) : Z := Z.lxor (ToInt32 a) (ToInt32 b).
Definition not (a : Z) : Z := Z.lnot (ToInt32 a).

(** [a << n] and [a >>> n]: the shift count is taken modulo 32. *)
Definition shl (a n : Z) : Z := ToInt32 (Z.shiftl (ToInt32 a) (ToUint32 n mod 32)).
Definition ushr (a n : Z) : Z := Z.shiftr (ToUint32 a) (ToUint32 n mod 32).

(** [Math.imul(a, b)]. *)
Definition imul (a b : Z) : Z := ToInt32 (ToInt32 a * ToInt32 b).

End JS.

(** ** Hashing and indexing *)

Definition charCode (c : ascii) : Z := Z.of_N (N_of_ascii c).

(** The loop of [hash]: [h = (Math.imul(31, h) + key.charCodeAt(i)) | 0]. *)
Fixpoint hash_loop (key : string) (h : Z) : Z :=
  match key with
  | EmptyString => h
  | String c rest => hash_loop rest (JS.or (JS.imul 31 h + charCode c) 0)
  end.

Definition hash (key : string) : Z :=
  let h := hash_loop key 0 in
  let h := JS.xor h (JS.ushr h 16) in
  let h := JS.imul h 0x85ebca6b in
  let h := JS.xor h (JS.ushr h 13) in
  let h := JS.imul h 0xc2b2ae35 in
  let h := JS.xor h (JS.ushr h 16) in
  JS.ushr h 0.

Definition maskHash (hash shift : Z) : Z :=
  JS.and (JS.ushr hash shift) 0x1f.

Definition bitpos (hash shift : Z) : Z :=
  let masked := maskHash hash shift in
  JS.ushr (JS.shl 1 masked) 0.

Definition popcount (x : Z) : Z :=
  let x := x - JS.and (JS.ushr x 1) 0x55555555 in
  let x := JS.and x 0x33333333 + JS.and (JS.ushr x 2) 0x33333333 in
  let x := JS.and (x + JS.ushr x 4) 0x0f0f0f0f in
  let x := x + JS.ushr x 8 in
  let x := x + JS.ushr x 16 in
  JS.and x 0x3f.

(** ** Outcomes of a call

    A call either returns, throws a [TypeError] (a property read on
    [undefined]) or is still recursing when the fuel of the model runs
    out. *)

Inductive result (A : Type) : Type :=
| Ok (a : A)
| TypeError
| OutOfFuel.
Arguments Ok {A} a.
Arguments TypeError {A}.
Arguments OutOfFuel {A}.

Definition bind {A B} (r : result A) (f : A -> result B) : result B :=
  match r with
  | Ok a => f a
  | TypeError => TypeError
  | OutOfFuel => OutOfFuel
  end.

Notation "x <- r ;; k" := (bind r (fun x => k))
  (at level 61, r at next level, right associativity).
Notation "' p <- r ;; k" := (bind r (fun x => let p := x in k))
  (at level 61, p pattern, r at next level, right associativity).

(** ** Arrays *)

Section Arrays.
Context {A : Type}.

(** [Array.prototype.findIndex]: the first index whose element satisfies
    [p], or [-1]. *)
Fixpoint findIndex (p : A -> bool) (l : list A) : Z :=
  match l with
  | [] => -1
  | x :: l' =>
      if p x then 0
      else let i := findIndex p l' in if i =? -1 then -1 else i + 1
  end.

(** [a[i] = x] on a copy of [a], for [i] inside the array.  Every
    indexed assignment of the program writes at an index that was just
    read successfully; outside the array the model leaves the list as it
    is. *)
Fixpoint array_set (l : list A) (i : nat) (x : A) : list A :=
  match l, i with
  | [], _ => []
  | _ :: l', O => x :: l'
  | y :: l', S i' => y :: array_set l' i' x
  end.

End Arrays.

(** ** Node model *)

Section Trie.
Context {V : Type}.

Record LeafNode : Type := mkLeaf {
  leaf_hash : Z;
  entries : list (string * V)
}.

#[local] Unset Elimination Schemes.
Inductive HAMTNode : Type :=
| Leaf (l : LeafNode)
| Internal (bitmap : Z) (children : list HAMTNode).
#[local] Set Elimination Schemes.

Record HAMT : Type := mkHAMT {
  root : option HAMTNode;
  size : Z
}.

(** The empty map, written [{ root: none, size: 0 }] by the clients. *)
Definition empty : HAMT := {| root := None; size := 0 |}.

Definition createLeaf (hash : Z) (key : string) (value : V) : LeafNode :=
  {| leaf_hash := hash; entries := [(key, value)] |}.

Definition createInternal (bitmap : Z) (children : list HAMTNode) : HAMTNode :=
  Internal bitmap children.

Definition key_is (key : string) (e : string * V) : bool := (fst e =? key)%string.

(** ** Insert *)

(** [mergeLeaves] recurses on a growing [shift]; [fuel] bounds the number
    of calls. *)
Fixpoint mergeLeaves (fuel : nat) (shift : Z) (node : LeafNode) (hash : Z)
    (key : string) (value : V) : result HAMTNode :=
  match fuel with
  | O => OutOfFuel
  | S fuel' =>
      let bit1 := bitpos (leaf_hash node) shift in
      let bit2 := bitpos hash shift in
      if bit1 =? bit2 then
        newNode <- mergeLeaves fuel' (shift + 5) node hash key value ;;
        Ok (createInternal bit1 [newNode])
      else
        let children :=
          if bit1 <? bit2
          then [Leaf node; Leaf (createLeaf hash key value)]
          else [Leaf (createLeaf hash key value); Leaf node] in
        Ok (createInternal (JS.or bit1 bit2) children)
  end.

(** The update functions return [(newNode, inserted, same)]: the pair of
    the source and a flag [same] that holds when [newNode] is the very
    object that was passed in, which is what [newChild === child] tests. *)
Definition updateLeafNode (fuel : nat) (node : LeafNode) (hash shift : Z)
    (key : string) (value : V) : result (HAMTNode * bool * bool) :=
  if leaf_hash node =? hash then
    let index := findIndex (key_is key) (entries node) in
    if negb (index =? -1) then
      let newEntries := array_set (entries node) (Z.to_nat index) (key, value) in
      Ok (Leaf {| leaf_hash := leaf_hash node; entries := newEntries |}, false, false)
    else
      Ok (Leaf {| leaf_hash := leaf_hash node;
                  entries := entries node ++ [(key, value)] |}, true, false)
  else
    merged <- mergeLeaves fuel shift node hash key value ;;
    Ok (merged, true, false).

(** [rec] is the call [updateNode(_, hash, shift + 5, key, value)]. *)
Definition updateInternalNode (rec : HAMTNode -> result (HAMTNode * bool * bool))
    (bitmap : Z) (children : list HAMTNode) (hash shift : Z)
    (key : string) (value : V) : result (HAMTNode * bool * bool) :=
  let bit := bitpos hash shift in
  let idx := Z.to_nat (popcount (JS.and bitmap (bit - 1))) in
  if negb (JS.and bitmap bit =? 0) then
    match nth_error (map rec children) idx with
    | None => TypeError
    | Some r =>
        '(newChild, inserted, same) <- r ;;
        if same : bool then Ok (Internal bitmap children, false, true)
        else
          let newChildren := array_set children idx newChild in
          Ok (createInternal bitmap newChildren, inserted, false)
    end
  else
    let newChild := Leaf (createLeaf hash key value) in
    let newChildren := firstn idx children ++ newChild :: skipn idx children in
    Ok (createInternal (JS.or bitmap bit) newChildren, true, false).

Fixpoint updateNode (fuel : nat) (node : HAMTNode) (hash shift : Z)
    (key : string) (value : V) {struct node} : result (HAMTNode * bool * bool) :=
  match node with
  | Leaf l => updateLeafNode fuel l hash shift key value
  | Internal bitmap children =>
      updateInternalNode (fun child => updateNode fuel child hash (shift + 5) key value)
        bitmap children hash shift key value
  end.

Definition insert (fuel : nat) (hamt : HAMT) (key : string) (value : V) : result HAMT :=
  let keyHash := hash key in
  '(updatedRoot, sizeChange) <-
    match root hamt with
    | None => Ok (Some (Leaf (createLeaf keyHash key value)), 1)
    | Some node =>
        '(newNode, inserted, _) <- updateNode fuel node keyHash 0 key value ;;
        Ok (Some newNode, if inserted : bool then 1 else 0)
    end ;;
  Ok {| root := updatedRoot; size := size hamt + sizeChange |}.

(** ** Lookup *)

Definition lookupLeafNode (node : LeafNode) (hash : Z) (key : string) : option V :=
  if leaf_hash node =? hash then
    match find (key_is key) (entries node) with
    | Some entry => Some (snd entry)
    | None => None
    end
  else None.

(** [rec] is the call [lookupNode(_, hash, shift + 5, key)]. *)
Definition lookupInternalNode (rec : HAMTNode -> result (option V))
    (bitmap : Z) (children : list HAMTNode) (hash shift : Z) : result (option V) :=
  let bit := bitpos hash shift in
  if JS.and bitmap bit =? 0 then Ok None
  else
    let idx := Z.to_nat (popcount (JS.and bitmap (bit - 1))) in
    match nth_error (map rec children) idx with
    | None => TypeError
    | Some r => r
    end.

Fixpoint lookupNode (node : HAMTNode) (hash shift : Z) (key : string)
    {struct node} : result (option V) :=
  match node with
  | Leaf l => Ok (lookupLeafNode l hash key)
  | Internal bitmap children =>
      lookupInternalNode (fun child => lookupNode child hash (shift + 5) key)
        bitmap children hash shift
  end.

Definition lookup (hamt : HAMT) (key : string) : result (option V) :=
  let keyHash := hash key in
  match root hamt with
  | None => Ok None
  | Some node => lookupNode node keyHash 0 key
  end.

(** ** Remove *)

Definition removeLeafNode (node : LeafNode) (hash : Z) (key : string)
    : option HAMTNode * bool :=
  if leaf_hash node =? hash then
    let newEntries := filter (fun e => negb (key_is key e)) (entries node) in
    if (List.length newEntries =? 0)%nat then (None, true)
    else if (List.length newEntries =? List.length (entries node))%nat
    then (Some (Leaf node), false)
    else (Some (Leaf {| leaf_hash := leaf_hash node; entries := newEntries |}), true)
  else (Some (Leaf node), false).

(** [rec] is the call [removeNode(_, hash, shift + 5, key)]. *)
Definition removeInternalNode (rec : HAMTNode -> result (option HAMTNode * bool))
    (bitmap : Z) (children : list HAMTNode) (hash shift : Z)
    : result (option HAMTNode * bool) :=
  let bit := bitpos hash shift in
  if JS.and bitmap bit =? 0 then Ok (Some (Internal bitmap children), false)
  else
    let idx := Z.to_nat (popcount (JS.and bitmap (bit - 1))) in
    match nth_error (map rec children) idx with
    | None => TypeError
    | Some r =>
        '(newChild, deleted) <- r ;;
        if negb deleted then Ok (Some (Internal bitmap children), false)
        else
          match newChild with
          | None =>
              let newBitmap := JS.and bitmap (JS.not bit) in
              if newBitmap =? 0 then Ok (None, true)
              else
                let newChildren := firstn idx children ++ skipn (idx + 1) children in
                Ok (Some (createInternal newBitmap newChildren), true)
          | Some c =>
              (* [getOrElse(() => child)] is applied to a present option *)
              let newChildren := array_set children idx c in
              Ok (Some (createInternal bitmap newChildren), true)
          end
    end.

Fixpoint removeNode (node : HAMTNode) (hash shift : Z) (key : string)
    {struct node} : result (option HAMTNode * bool) :=
  match node with
  | Leaf l => Ok (removeLeafNode l hash key)
  | Internal bitmap children =>
      removeInternalNode (fun child => removeNode child hash (shift + 5) key)
        bitmap children hash shift
  end.

Definition remove (hamt : HAMT) (key : string) : result HAMT :=
  let keyHash := hash key in
  '(updatedRoot, sizeChange) <-
    match root hamt with
    | None => Ok (None, 0)
    | Some node =>
        '(newNode, deleted) <- removeNode node keyHash 0 key ;;
        Ok (newNode, if deleted : bool then -1 else 0)
    end ;;
  Ok {| root := updatedRoot; size := Z.max 0 (size hamt + sizeChange) |}.

End Trie.

Arguments LeafNode V : clear implicits.
Arguments HAMTNode V : clear implicits.
Arguments HAMT V : clear implicits.

(** * Vocabulary of the specification *)

(** ** Bits and branches *)

(** [bitcount n x] counts the set bits of [x] among the positions below
    [n]. *)
Fixpoint bitcount (n : nat) (x : Z) : nat :=
  match n with
  | O => O
  | S n' => ((if Z.testbit x (Z.of_nat n') then 1 else 0) + bitcount n' x)%nat
  end.

(** The slot of branch [m]: the number of occupied branches below it. *)
Definition rank (bm m : Z) : nat := bitcount (Z.to_nat m) bm.

(** The child stored for branch [m], if the branch is occupied. *)
Definition child_at {A : Type} (bm : Z) (cs : list A) (m : Z) : option A :=
  if Z.testbit bm m then nth_error cs (rank bm m) else None.

(** [1] when position [m] lies among the first [n], else [0]. *)
Definition among (m : Z) (n : nat) : nat :=
  if (0 <=? m) && (m <? Z.of_nat n) then 1%nat else 0%nat.

(** The low [5 * d] bits of a hash: the branches taken above depth [d]. *)
Definition pre (d : nat) (h : Z) : Z := h mod 2 ^ (5 * Z.of_nat d).

(** ** The SWAR reduction, on 16 bits

    The first three steps of [popcount] act on the two 16-bit halves of a
    word independently; on one half they are checked for every value. *)

Definition swar_pairs (y : Z) : Z := y - Z.land (y / 2) 0x5555.
Definition swar_nibbles (y : Z) : Z := Z.land y 0x3333 + Z.land (y / 4) 0x3333.
Definition swar_bytes (y : Z) : Z := Z.land (y + y / 16) 0x0f0f.

(** [P] holds for the [n] integers from [y] on. *)
Fixpoint all_from (n : nat) (y : Z) (P : Z -> bool) : bool :=
  match n with
  | O => true
  | S n' => P y && all_from n' (y + 1) P
  end.

(** After the three steps, the two bytes of a half hold the bit counts of
    its two bytes. *)
Definition half_ok (y : Z) : bool :=
  let a := swar_pairs y in
  let b := swar_nibbles a in
  let c := swar_bytes b in
  (0 <=? a) && (a <? 65536) && (0 <=? b) && (b <=? 0x4444) && (b mod 16 <=? 4)
  && (0 <=? c) && (c mod 256 <=? 8) && (c / 256 <=? 8)
  && (c mod 256 + c / 256 =? Z.of_nat (bitcount 16 y)).

(** ** Well-formed tries *)

Section Invariant.
Context {V : Type}.

(** Entries of the leaves below a node, from left to right. *)
Fixpoint toList (node : HAMTNode V) : list (string * V) :=
  match node with
  | Leaf l => entries l
  | Internal _ children => List.concat (map toList children)
  end.


(** [node_in n r]: node [n] is reachable from [r]. *)
Inductive node_in (n : HAMTNode V) : HAMTNode V -> Prop :=
| node_in_self : node_in n n
| node_in_child bitmap children c :
    In c children -> node_in n c -> node_in n (Internal bitmap children).

(** [wf_node d p node]: [node] is a well-formed subtree at depth [d]
    reached by the branches [p]. *)
Inductive wf_node : nat -> Z -> HAMTNode V -> Prop :=
| wf_Leaf d p l :
    (d <= 7)%nat ->
    entries l <> [] ->
    NoDup (map fst (entries l)) ->
    (forall e, In e (entries l) -> hash (fst e) = leaf_hash l) ->
    pre d (leaf_hash l) = p ->
    wf_node d p (Leaf l)
| wf_Internal d p bitmap children :
    (d <= 6)%nat ->
    0 <= p < 2 ^ (5 * Z.of_nat d) ->
    children <> [] ->
    List.length children = bitcount 32 bitmap ->
    (forall m c, 0 <= m < 32 -> child_at bitmap children m = Some c ->
                 wf_node (S d) (p + m * 2 ^ (5 * Z.of_nat d)) c) ->
    wf_node d p (Internal bitmap children).

Definition wf (hamt : HAMT V) : Prop :=
  match root hamt with
  | None => size hamt = 0
  | Some node => wf_node 0 0 node /\ size hamt = Z.of_nat (List.length (toList node))
  end.

(** Maps built from the empty map by [insert] and [remove]. *)
Inductive reachable : HAMT V -> Prop :=
| reach_empty : reachable empty
| reach_insert fuel hamt key value hamt' :
    reachable hamt -> insert fuel hamt key value = Ok hamt' -> reachable hamt'
| reach_remove hamt key hamt' :
    reachable hamt -> remove hamt key = Ok hamt' -> reachable hamt'.

(** Induction on nodes, with the hypothesis for every child. *)
Fixpoint HAMTNode_ind' (P : HAMTNode V -> Prop)
    (HLeaf : forall l, P (Leaf l))
    (HInternal : forall bitmap children,
        Forall P children -> P (Internal bitmap children))
    (node : HAMTNode V) {struct node} : P node :=
  match node with
  | Leaf l => HLeaf l
  | Internal bitmap children =>
      HInternal bitmap children
        ((fix all (cs : list (HAMTNode V)) : Forall P cs :=
            match cs with
            | [] => Forall_nil P
            | c :: cs' =>
                Forall_cons c (HAMTNode_ind' P HLeaf HInternal c) (all cs')
            end) children)
  end.

Definition lookupOpt (r : option (HAMTNode V)) (h s : Z) (key : string)
    : result (option V) :=
  match r with
  | None => Ok None
  | Some node => lookupNode node h s key
  end.

Definition toListOpt (r : option (HAMTNode V)) : list (string * V) :=
  match r with
  | None => []
  | Some node => toList node
  end.

(** The (key, value) entries of the leaves reachable from the root. *)
Definition bindings (hamt : HAMT V) : list (string * V) :=
  match root hamt with
  | None => []
  | Some node => toList node
  end.

(** Successive inserts of a list of entries. *)
Fixpoint insert_all (fuel : nat) (l : list (string * V)) (hamt : HAMT V)
    : result (HAMT V) :=
  match l with
  | [] => Ok hamt
  | (key, value) :: l' =>
      hamt' <- insert fuel hamt key value ;;
      insert_all fuel l' hamt'
  end.

End Invariant.

(** ** Sample maps

    ["Aa"], ["BB"] and ["C#"] have the same hash. *)

Definition build (l : list (string * Z)) : HAMT Z :=
  match insert_all 7 l empty with
  | Ok hamt => hamt
  | _ => empty
  end.

Definition sample : HAMT Z :=
  build [("key1", 1); ("key2", 2); ("Aa", 3); ("key3", 4)]%string.

Definition sample_root : HAMTNode Z :=
  match root sample with
  | Some r => r
  | None => Leaf (createLeaf 0 EmptyString 0)
  end.

(** ** Further vocabulary *)

(** The accumulation [h * 31 + charCode] of [hash] over the unbounded
    integers, without the wrap to 32 bits. *)
Fixpoint poly31 (key : string) (acc : Z) : Z :=
  match key with
  | EmptyString => acc
  | String c rest => poly31 rest (31 * acc + charCode c)
  end.

(** Successive removals of a list of keys. *)
Fixpoint remove_all {V : Type} (l : list string) (hamt : HAMT V) : result (HAMT V) :=
  match l with
  | [] => Ok hamt
  | key :: l' =>
      hamt' <- remove hamt key ;;
      remove_all l' hamt'
  end.

(** * The functions on concrete inputs *)

Example hash_key1 : hash "key1" = 620335481.
Proof. vm_compute. reflexivity. Qed.

Example hash_collision : hash "Aa" = hash "BB" /\ hash "BB" = hash "C#".
Proof. vm_compute. split; reflexivity. Qed.

Example maskHash_wraps : maskHash 0xffffffff 30 = 3 /\ maskHash 40 35 = 5.
Proof. vm_compute. split; reflexivity. Qed.

Example bitpos_top : bitpos 0xffffffff 0 = 2147483648.
Proof. vm_compute. reflexivity. Qed.

Example popcount_words :
  popcount 0 = 0 /\ popcount 0x80000001 = 2 /\ popcount (-1) = 32
  /\ popcount 0xffffffff = 32.
Proof. vm_compute. repeat split; reflexivity. Qed.

Example sample_contents :
  size sample = 4
  /\ lookup sample "Aa" = Ok (Some 3)
  /\ lookup sample "BB" = Ok None
  /\ (m <- insert 7 sample "BB" 5 ;; m' <- remove m "Aa" ;; lookup m' "BB")
     = Ok (Some 5).
Proof. vm_compute. repeat split; reflexivity. Qed.

Example remove_all_prunes :
  (m <- remove sample "key1" ;; m <- remove m "key2" ;;
   m <- remove m "Aa" ;; remove m "key3") = Ok empty.
Proof. vm_compute. reflexivity. Qed.

Example mergeLeaves_needs_fuel :
  mergeLeaves 0 0 (createLeaf (hash "key1") "key1" 1) (hash "key2") "key2" 2
  = OutOfFuel.
Proof. reflexivity. Qed.

(** * Arithmetic of the 32-bit operators *)

Lemma ToInt32_mod (x : Z) : JS.ToInt32 x mod 2^32 = x mod 2^32.
Proof.
  unfold JS.ToInt32.
  rewrite Zminus_mod_idemp_l.
  f_equal. lia.
Qed.

Lemma ToInt32_range (x : Z) : - 2^31 <= JS.ToInt32 x < 2^31.
Proof.
  unfold JS.ToInt32.
  pose proof (Z.mod_pos_bound (x + 2^31) (2^32) ltac:(lia)). lia.
Qed.

Lemma ToInt32_small (x : Z) : - 2^31 <= x < 2^31 -> JS.ToInt32 x = x.
Proof.
  intros H. unfold JS.ToInt32.
  rewrite Z.mod_small by lia. lia.
Qed.

Lemma testbit_ToInt32 (x i : Z) :
  0 <= i < 32 -> Z.testbit (JS.ToInt32 x) i = Z.testbit x i.
Proof.
  intros Hi.
  rewrite <- (Z.mod_pow2_bits_low (JS.ToInt32 x) 32 i) by lia.
  rewrite ToInt32_mod.
  apply Z.mod_pow2_bits_low; lia.
Qed.

(** Masking with a non-negative 31-bit constant only reads the low bits. *)
Lemma land_low_mask (y M k : Z) :
  0 <= k -> 0 <= M < 2^k -> Z.land y M = Z.land (y mod 2^k) M.
Proof.
  intros Hk HM.
  apply Z.bits_inj'. intros n Hn.
  rewrite !Z.land_spec.
  destruct (Z.ltb_spec n k).
  - rewrite Z.mod_pow2_bits_low by lia. reflexivity.
  - replace (Z.testbit M n) with false; [now rewrite !andb_false_r|].
    symmetry. destruct (Z.eq_dec M 0) as [->|]; [apply Z.bits_0|].
    apply Z.bits_above_log2; [lia|].
    apply Z.lt_le_trans with k; [|lia].
    apply Z.log2_lt_pow2; lia.
Qed.

Lemma JS_and_mask (a M : Z) :
  0 <= M < 2^31 -> JS.and a M = Z.land (a mod 2^32) M.
Proof.
  intros HM. unfold JS.and.
  rewrite (ToInt32_small M) by lia.
  rewrite (land_low_mask (JS.ToInt32 a) M 32), ToInt32_mod by lia.
  reflexivity.
Qed.

Lemma JS_ushr_spec (a n : Z) :
  0 <= n < 32 -> JS.ushr a n = (a mod 2^32) / 2^n.
Proof.
  intros Hn. unfold JS.ushr, JS.ToUint32.
  rewrite (Z.mod_small n) by lia.
  rewrite (Z.mod_small n) by lia.
  apply Z.shiftr_div_pow2. lia.
Qed.

(** ** Population count

    [bitcount n x] counts the set bits of [x] among the positions below
    [n]; the SWAR reduction of [popcount] computes [bitcount 32]. *)

Lemma all_from_spec (P : Z -> bool) (n : nat) (y : Z) :
  all_from n y P = true -> forall z, y <= z < y + Z.of_nat n -> P z = true.
Proof.
  revert y. induction n as [|n IH]; intros y H z Hz; [lia|].
  cbn [all_from] in H. apply andb_prop in H as [Hy Hrest].
  destruct (Z.eq_dec z y) as [->|Hne]; [exact Hy|].
  apply (IH (y + 1) Hrest). lia.
Qed.

Lemma half_ok_all (y : Z) : 0 <= y < 65536 -> half_ok y = true.
Proof.
  intros Hy.
  apply (all_from_spec half_ok (Z.to_nat 65536) 0); [vm_compute; reflexivity | lia].
Qed.

Lemma land_split16 (a b : Z) :
  Z.land a b =
  Z.land (a mod 2^16) (b mod 2^16) + 2^16 * Z.land (a / 2^16) (b / 2^16).
Proof.
  rewrite (Z.div_mod (Z.land a b) (2^16)) at 1 by lia.
  rewrite Z.add_comm. f_equal.
  - rewrite <- !Z.land_ones by lia.
    apply Z.bits_inj'. intros n Hn.
    rewrite !Z.land_spec.
    destruct (Z.testbit a n), (Z.testbit b n), (Z.testbit (Z.ones 16) n); reflexivity.
  - f_equal. rewrite <- !Z.shiftr_div_pow2 by lia. apply Z.shiftr_land.
Qed.

Section Halves.
Variables lo hi : Z.
Hypothesis Hlo : 0 <= lo < 65536.
Hypothesis Hhi : 0 <= hi.

Lemma split_pairs :
  (lo + 65536 * hi) - Z.land ((lo + 65536 * hi) / 2) 0x55555555
  = swar_pairs lo + 65536 * swar_pairs hi.
Proof.
  unfold swar_pairs.
  rewrite (land_split16 ((lo + 65536 * hi) / 2) 0x55555555).
  change (0x55555555 mod 2^16) with 0x5555.
  change (0x55555555 / 2^16) with 0x5555.
  replace ((lo + 65536 * hi) / 2 / 2^16) with (hi / 2)
    by (change (2^16) with 65536; Z.div_mod_to_equations; lia).
  rewrite (land_low_mask ((lo + 65536 * hi) / 2 mod 2^16) 0x5555 15) by lia.
  replace (((lo + 65536 * hi) / 2 mod 2^16) mod 2^15) with (lo / 2)
    by (change (2^16) with 65536; change (2^15) with 32768;
        Z.div_mod_to_equations; lia).
  lia.
Qed.

Lemma split_nibbles :
  Z.land (lo + 65536 * hi) 0x33333333 + Z.land ((lo + 65536 * hi) / 4) 0x33333333
  = swar_nibbles lo + 65536 * swar_nibbles hi.
Proof.
  unfold swar_nibbles.
  rewrite (land_split16 (lo + 65536 * hi) 0x33333333).
  rewrite (land_split16 ((lo + 65536 * hi) / 4) 0x33333333).
  change (0x33333333 mod 2^16) with 0x3333.
  change (0x33333333 / 2^16) with 0x3333.
  replace ((lo + 65536 * hi) mod 2^16) with lo
    by (change (2^16) with 65536; Z.div_mod_to_equations; lia).
  replace ((lo + 65536 * hi) / 2^16) with hi
    by (change (2^16) with 65536; Z.div_mod_to_equations; lia).
  replace ((lo + 65536 * hi) / 4 / 2^16) with (hi / 4)
    by (change (2^16) with 65536; Z.div_mod_to_equations; lia).
  rewrite (land_low_mask ((lo + 65536 * hi) / 4 mod 2^16) 0x3333 14) by lia.
  replace (((lo + 65536 * hi) / 4 mod 2^16) mod 2^14) with (lo / 4)
    by (change (2^16) with 65536; change (2^14) with 16384;
        Z.div_mod_to_equations; lia).
  lia.
Qed.

Lemma split_bytes :
  lo <= 0x4444 -> hi mod 16 <= 4 ->
  Z.land ((lo + 65536 * hi) + (lo + 65536 * hi) / 16) 0x0f0f0f0f
  = swar_bytes lo + 65536 * swar_bytes hi.
Proof.
  intros Hb Hm. unfold swar_bytes.
  rewrite (land_split16 _ 0x0f0f0f0f).
  change (0x0f0f0f0f mod 2^16) with 0x0f0f.
  change (0x0f0f0f0f / 2^16) with 0x0f0f.
  replace (((lo + 65536 * hi) + (lo + 65536 * hi) / 16) / 2^16) with (hi + hi / 16)
    by (change (2^16) with 65536; Z.div_mod_to_equations; lia).
  rewrite (land_low_mask (_ mod 2^16) 0x0f0f 12) by lia.
  rewrite (land_low_mask (lo + lo / 16) 0x0f0f 12) by lia.
  replace ((((lo + 65536 * hi) + (lo + 65536 * hi) / 16) mod 2^16) mod 2^12)
    with ((lo + lo / 16) mod 2^12)
    by (change (2^16) with 65536; change (2^12) with 4096;
        Z.div_mod_to_equations; lia).
  lia.
Qed.

End Halves.

Lemma bitcount_split (n k : nat) (x : Z) :
  bitcount (n + k) x = (bitcount k x + bitcount n (x / 2 ^ Z.of_nat k))%nat.
Proof.
  induction n as [|n IH]; [cbn; lia|].
  cbn [Nat.add bitcount]. rewrite IH.
  rewrite Z.div_pow2_bits by lia.
  replace (Z.of_nat n + Z.of_nat k) with (Z.of_nat (n + k)) by lia.
  lia.
Qed.

Lemma bitcount_mod (n : nat) (k x : Z) :
  Z.of_nat n <= k -> bitcount n (x mod 2 ^ k) = bitcount n x.
Proof.
  intros Hk. induction n as [|n IH]; [reflexivity|].
  cbn [bitcount]. rewrite IH by lia.
  rewrite Z.mod_pow2_bits_low by lia. reflexivity.
Qed.


(** The last two folding steps, on the four per-byte counts. *)
Lemma swar_fold (p0 p1 p2 p3 : Z) :
  0 <= p0 <= 8 -> 0 <= p1 <= 8 -> 0 <= p2 <= 8 -> 0 <= p3 <= 8 ->
  let z := (p0 + 256 * p1) + 65536 * (p2 + 256 * p3) in
  ((z + z / 256 + (z + z / 256) / 65536) mod 4294967296) mod 64 = p0 + p1 + p2 + p3.
Proof.
  intros H0 H1 H2 H3 z.
  assert (E8 : z / 256 = p1 + 256 * p2 + 65536 * p3).
  { symmetry. apply Z.div_unique with p0; unfold z; lia. }
  rewrite E8.
  assert (E16 : (z + (p1 + 256 * p2 + 65536 * p3)) / 65536 = (p2 + p3) + 256 * p3).
  { symmetry. apply Z.div_unique with ((p0 + p1) + 256 * (p1 + p2)); unfold z; lia. }
  rewrite E16.
  rewrite (Z.mod_small _ 4294967296) by (unfold z; lia).
  symmetry.
  apply Z.mod_unique with
    (4 * (p1 + p2 + p3) + 1024 * (p2 + p3) + 262144 * p3); unfold z; lia.
Qed.

(** The SWAR reduction counts the bits of the low 32-bit word of its
    argument, in whichever of the two 32-bit readings the number comes. *)
Lemma popcount_spec (x : Z) : popcount x = Z.of_nat (bitcount 32 x).
Proof.
  set (u := x mod 2^32).
  assert (Hu : 0 <= u < 2^32) by (apply Z.mod_pos_bound; lia).
  set (lo := u mod 65536). set (hi := u / 65536).
  assert (Hlo : 0 <= lo < 65536) by (apply Z.mod_pos_bound; lia).
  assert (Hhi : 0 <= hi < 65536) by (unfold hi; Z.div_mod_to_equations; lia).
  assert (Eu : u = lo + 65536 * hi) by (unfold lo, hi; Z.div_mod_to_equations; lia).
  pose proof (half_ok_all lo Hlo) as Ol. pose proof (half_ok_all hi Hhi) as Oh.
  unfold half_ok in Ol, Oh. cbv zeta in Ol, Oh.
  repeat (apply andb_prop in Ol as [Ol ?]). repeat (apply andb_prop in Oh as [Oh ?]).
  repeat match goal with
         | H : (_ <=? _) = true |- _ => apply Z.leb_le in H
         | H : (_ <? _) = true |- _ => apply Z.ltb_lt in H
         | H : (_ =? _) = true |- _ => apply Z.eqb_eq in H
         end.
  set (al := swar_pairs lo) in *. set (ah := swar_pairs hi) in *.
  set (bl := swar_nibbles al) in *. set (bh := swar_nibbles ah) in *.
  set (cl := swar_bytes bl) in *. set (ch := swar_bytes bh) in *.
  (* the count *)
  assert (Ecount : bitcount 32 x = (bitcount 16 lo + bitcount 16 hi)%nat).
  { rewrite <- (bitcount_mod 32 32 x) by lia. fold u.
    change 32%nat with (16 + 16)%nat. rewrite bitcount_split.
    rewrite <- (bitcount_mod 16 16 u) by lia. reflexivity. }
  rewrite Ecount.
  (* the reduction *)
  unfold popcount. cbv zeta.
  assert (E1 : x - JS.and (JS.ushr x 1) 0x55555555 = x - u + (al + 65536 * ah)).
  { rewrite JS_ushr_spec, JS_and_mask by lia. fold u.
    rewrite (Z.mod_small (u / 2^1)) by (Z.div_mod_to_equations; lia).
    change (2^1) with 2. unfold al, ah.
    rewrite <- (split_pairs lo hi) by lia. rewrite <- Eu. lia. }
  rewrite E1. clear E1.
  set (v := al + 65536 * ah).
  assert (Ev : (x - u + v) mod 2^32 = v).
  { replace (x - u + v) with (v + (x / 2^32) * 2^32)
      by (unfold u; Z.div_mod_to_equations; lia).
    rewrite Z.mod_add by lia. apply Z.mod_small. unfold v. lia. }
  assert (E2 : JS.and (x - u + v) 0x33333333
               + JS.and (JS.ushr (x - u + v) 2) 0x33333333 = bl + 65536 * bh).
  { rewrite JS_ushr_spec, !JS_and_mask by lia. rewrite Ev.
    rewrite (Z.mod_small (v / 2^2)) by (unfold v; Z.div_mod_to_equations; lia).
    change (2^2) with 4. unfold v, bl, bh. apply split_nibbles; lia. }
  rewrite E2. clear E2.
  set (w := bl + 65536 * bh).
  assert (Hw : 0 <= w < 2^31) by (unfold w; lia).
  assert (E3 : JS.and (w + JS.ushr w 4) 0x0f0f0f0f = cl + 65536 * ch).
  { rewrite JS_ushr_spec, JS_and_mask by lia.
    rewrite (Z.mod_small w) by lia. change (2^4) with 16.
    rewrite (Z.mod_small (w + w / 16)) by (Z.div_mod_to_equations; lia).
    unfold w, cl, ch. apply split_bytes; lia. }
  rewrite E3. clear E3.
  set (z := cl + 65536 * ch).
  assert (Ecl : cl = cl mod 256 + 256 * (cl / 256)) by (Z.div_mod_to_equations; lia).
  assert (Ech : ch = ch mod 256 + 256 * (ch / 256)) by (Z.div_mod_to_equations; lia).
  assert (Hm0 : 0 <= cl mod 256) by (apply Z.mod_pos_bound; lia).
  assert (Hm1 : 0 <= cl / 256) by (apply Z.div_pos; lia).
  assert (Hm2 : 0 <= ch mod 256) by (apply Z.mod_pos_bound; lia).
  assert (Hm3 : 0 <= ch / 256) by (apply Z.div_pos; lia).
  pose proof (swar_fold (cl mod 256) (cl / 256) (ch mod 256) (ch / 256)
                ltac:(lia) ltac:(lia) ltac:(lia) ltac:(lia)) as F.
  cbv zeta in F. rewrite <- Ecl, <- Ech in F. fold z in F.
  assert (Hz : 0 <= z < 2^31) by (unfold z; lia).
  rewrite (JS_ushr_spec z 8) by lia.
  rewrite (Z.mod_small z) by lia.
  change (2^8) with 256.
  assert (Hz8 : 0 <= z / 256 <= z)
    by (split; [apply Z.div_pos; lia | apply Z.div_le_upper_bound; lia]).
  rewrite (JS_ushr_spec _ 16) by lia.
  rewrite (Z.mod_small (z + z / 256)) by lia.
  rewrite JS_and_mask by lia.
  change 0x3f with (Z.ones 6). rewrite Z.land_ones by lia.
  change (2^16) with 65536. change (2^6) with 64.
  change (2^32) with 4294967296.
  rewrite F. lia.
Qed.

(** ** Bits of 32-bit values *)

Lemma int32_sign_bits (y i : Z) :
  - 2^31 <= y < 2^31 -> 31 <= i -> Z.testbit y i = Z.testbit y 31.
Proof.
  intros Hy Hi.
  assert (Hhigh : forall n, 31 <= n -> Z.testbit y n = (y <? 0)).
  { intros n Hn. destruct (Z.ltb_spec y 0) as [Hneg|Hpos].
    - apply Z.bits_above_log2_neg; [lia|].
      destruct (Z.eq_dec (Z.pred (- y)) 0) as [->|Hne]; [cbn; lia|].
      apply Z.lt_le_trans with 31; [|lia].
      apply Z.log2_lt_pow2; lia.
    - destruct (Z.eq_dec y 0) as [->|Hne]; [apply Z.bits_0|].
      apply Z.bits_above_log2; [lia|].
      apply Z.lt_le_trans with 31; [|lia].
      apply Z.log2_lt_pow2; lia. }
  rewrite (Hhigh i Hi), (Hhigh 31) by lia. reflexivity.
Qed.

Lemma testbit_ToInt32_high (x i : Z) :
  31 <= i -> Z.testbit (JS.ToInt32 x) i = Z.testbit x 31.
Proof.
  intros Hi.
  rewrite (int32_sign_bits _ i (ToInt32_range x) Hi).
  apply testbit_ToInt32. lia.
Qed.

Lemma testbit_pow2 (m i : Z) : 0 <= m -> Z.testbit (2^m) i = (i =? m).
Proof.
  intros Hm. rewrite Z.pow2_bits_eqb by lia. apply Z.eqb_sym.
Qed.

Section Bit.
Variables bm m : Z.
Hypothesis Hm : 0 <= m < 32.

(** [(bitmap & bit) === 0] tests bit [m] of the bitmap. *)
Lemma and_bit_test : (JS.and bm (2^m) =? 0) = negb (Z.testbit bm m).
Proof.
  unfold JS.and.
  destruct (Z.testbit bm m) eqn:Hb; cbn [negb].
  - apply Z.eqb_neq. intros E.
    apply (f_equal (fun z => Z.testbit z m)) in E.
    rewrite Z.land_spec, !testbit_ToInt32, testbit_pow2, Z.eqb_refl, Hb, Z.bits_0 in E
      by lia.
    discriminate.
  - apply Z.eqb_eq, Z.bits_inj'. intros i Hi.
    rewrite Z.land_spec, Z.bits_0.
    destruct (Z.ltb_spec i 32).
    + rewrite !testbit_ToInt32, testbit_pow2 by lia.
      destruct (Z.eqb_spec i m) as [->|]; [rewrite Hb|]; auto using andb_false_r.
    + rewrite !testbit_ToInt32_high, testbit_pow2 by lia.
      destruct (Z.eqb_spec 31 m) as [<-|]; [rewrite Hb|]; auto using andb_false_r.
Qed.

(** [bitmap & (bit - 1)] keeps the bits below [m]. *)
Lemma and_below : JS.and bm (2^m - 1) = bm mod 2^m.
Proof.
  assert (2^m <= 2^31) by (apply Z.pow_le_mono_r; lia).
  assert (0 < 2^m) by (apply Z.pow_pos_nonneg; lia).
  rewrite JS_and_mask by lia.
  replace (2^m - 1) with (Z.ones m) by (rewrite Z.ones_equiv; lia).
  rewrite Z.land_ones by lia.
  replace 32 with (m + (32 - m)) by lia.
  rewrite Z.pow_add_r by lia.
  rewrite Z.rem_mul_r by lia.
  rewrite Z.mul_comm, Z.mod_add by lia.
  apply Z.mod_mod. lia.
Qed.

Lemma testbit_or_bit (i : Z) :
  0 <= i < 32 -> Z.testbit (JS.or bm (2^m)) i = Z.testbit bm i || (i =? m).
Proof.
  intros Hi. unfold JS.or.
  rewrite Z.lor_spec, !testbit_ToInt32, testbit_pow2 by lia. reflexivity.
Qed.

Lemma testbit_and_not_bit (i : Z) :
  0 <= i < 32 ->
  Z.testbit (JS.and bm (JS.not (2^m))) i = Z.testbit bm i && negb (i =? m).
Proof.
  intros Hi. unfold JS.and, JS.not.
  rewrite Z.land_spec, !testbit_ToInt32, Z.lnot_spec, testbit_ToInt32, testbit_pow2
    by lia.
  reflexivity.
Qed.

(** [newBitmap === 0] holds exactly when no bit is left among the 32. *)
Lemma and_not_bit_zero :
  (JS.and bm (JS.not (2^m)) =? 0) = (bitcount 32 (JS.and bm (JS.not (2^m))) =? 0)%nat.
Proof.
  destruct (Z.eqb_spec (JS.and bm (JS.not (2^m))) 0) as [E|NE].
  - rewrite E. reflexivity.
  - symmetry. apply Nat.eqb_neq. intros C. apply NE.
    assert (Hlow : forall n i, (n <= 32)%nat -> 0 <= i < Z.of_nat n ->
               bitcount n (JS.and bm (JS.not (2^m))) = 0%nat ->
               Z.testbit (JS.and bm (JS.not (2^m))) i = false).
    { induction n as [|n IH]; intros i Hn Hi Hc; [lia|].
      cbn [bitcount] in Hc.
      destruct (Z.eq_dec i (Z.of_nat n)) as [->|Hne].
      - destruct (Z.testbit _ (Z.of_nat n)); [lia|reflexivity].
      - apply IH; [lia|lia|].
        destruct (Z.testbit _ (Z.of_nat n)); lia. }
    apply Z.bits_inj'. intros i Hi. rewrite Z.bits_0.
    destruct (Z.ltb_spec i 32).
    + apply (Hlow 32%nat); [lia|lia|exact C].
    + pose proof (Hlow 32%nat 31 ltac:(lia) ltac:(lia) C) as H31.
      unfold JS.and, JS.not in *.
      rewrite Z.land_spec in *.
      rewrite testbit_ToInt32_high by lia.
      rewrite testbit_ToInt32 in H31 by lia.
      rewrite (int32_sign_bits (JS.ToInt32 (Z.lnot (JS.ToInt32 (2^m)))) i)
        by (try apply ToInt32_range; lia).
      exact H31.
Qed.

End Bit.

(** ** Hashes *)

Lemma JS_ushr_range (a n : Z) : 0 <= JS.ushr a n < 2^32.
Proof.
  unfold JS.ushr, JS.ToUint32.
  pose proof (Z.mod_pos_bound a (2^32) ltac:(lia)).
  pose proof (Z.mod_pos_bound (n mod 2^32) 32 ltac:(lia)).
  rewrite Z.shiftr_div_pow2 by lia.
  split; [apply Z.div_pos; [lia | apply Z.pow_pos_nonneg; lia]|].
  apply Z.le_lt_trans with (a mod 2^32); [|lia].
  apply Z.div_le_upper_bound; [apply Z.pow_pos_nonneg; lia|].
  assert (0 < 2 ^ ((n mod 2^32) mod 32)) by (apply Z.pow_pos_nonneg; lia).
  nia.
Qed.

Lemma hash_range (key : string) : 0 <= hash key < 2^32.
Proof. apply JS_ushr_range. Qed.

Lemma maskHash_spec (h s : Z) :
  maskHash h s = ((h mod 2^32) / 2 ^ (s mod 32)) mod 32.
Proof.
  unfold maskHash.
  rewrite JS_and_mask by lia.
  rewrite (Z.mod_small (JS.ushr h s)) by apply JS_ushr_range.
  change 0x1f with (Z.ones 5). rewrite Z.land_ones by lia.
  unfold JS.ushr, JS.ToUint32.
  assert (E : (s mod 2^32) mod 32 = s mod 32).
  { apply Z.mod_mod_divide. exists (2^27). reflexivity. }
  rewrite E.
  rewrite Z.shiftr_div_pow2 by (apply Z.mod_pos_bound; lia).
  reflexivity.
Qed.

Lemma maskHash_range (h s : Z) : 0 <= maskHash h s < 32.
Proof. rewrite maskHash_spec. apply Z.mod_pos_bound. lia. Qed.

Lemma bitpos_spec (h s : Z) : bitpos h s = 2 ^ maskHash h s.
Proof.
  unfold bitpos. cbv zeta.
  pose proof (maskHash_range h s) as Hm.
  set (m := maskHash h s) in *.
  assert (0 < 2^m) by (apply Z.pow_pos_nonneg; lia).
  assert (2^m < 2^32) by (apply Z.pow_lt_mono_r; lia).
  rewrite JS_ushr_spec by lia.
  unfold JS.shl, JS.ToUint32.
  rewrite (Z.mod_small m (2^32)) by lia.
  rewrite (Z.mod_small m 32) by lia.
  rewrite (ToInt32_small 1) by lia.
  rewrite Z.shiftl_1_l.
  rewrite ToInt32_mod, Z.mod_small by lia.
  change (2^0) with 1. apply Z.div_1_r.
Qed.

Lemma bitpos_inj (h1 h2 s : Z) :
  bitpos h1 s = bitpos h2 s -> maskHash h1 s = maskHash h2 s.
Proof.
  rewrite !bitpos_spec.
  pose proof (maskHash_range h1 s). pose proof (maskHash_range h2 s).
  apply Z.pow_inj_r; lia.
Qed.

Lemma bitpos_lt (h1 h2 s : Z) :
  (bitpos h1 s <? bitpos h2 s) = (maskHash h1 s <? maskHash h2 s).
Proof.
  rewrite !bitpos_spec.
  pose proof (maskHash_range h1 s). pose proof (maskHash_range h2 s).
  destruct (Z.ltb_spec (maskHash h1 s) (maskHash h2 s)).
  - apply Z.ltb_lt, Z.pow_lt_mono_r; lia.
  - apply Z.ltb_ge, Z.pow_le_mono_r; lia.
Qed.

(** * Sparse arrays

    An Internal node stores the children of its occupied branches in
    ascending branch order; the child of branch [m] sits at the number of
    occupied branches below [m]. *)

Lemma popcount_and_below (bm m : Z) :
  0 <= m < 32 -> Z.to_nat (popcount (JS.and bm (2^m - 1))) = rank bm m.
Proof.
  intros Hm. rewrite and_below, popcount_spec, Nat2Z.id by lia.
  unfold rank.
  replace 32%nat with ((32 - Z.to_nat m) + Z.to_nat m)%nat by lia.
  rewrite bitcount_split, Z2Nat.id by lia.
  rewrite bitcount_mod by lia.
  assert (0 < 2^m) by (apply Z.pow_pos_nonneg; lia).
  rewrite Z.div_small by (apply Z.mod_pos_bound; lia).
  assert (Z0 : forall n, bitcount n 0 = 0%nat).
  { induction n as [|n IH]; cbn [bitcount]; [|rewrite IH, Z.bits_0]; reflexivity. }
  rewrite Z0. lia.
Qed.

Lemma idx_rank (bm h s : Z) :
  Z.to_nat (popcount (JS.and bm (bitpos h s - 1))) = rank bm (maskHash h s).
Proof.
  rewrite bitpos_spec. apply popcount_and_below, maskHash_range.
Qed.

Lemma bit_test (bm h s : Z) :
  (JS.and bm (bitpos h s) =? 0) = negb (Z.testbit bm (maskHash h s)).
Proof.
  rewrite bitpos_spec. apply and_bit_test, maskHash_range.
Qed.

Lemma bitcount_zero (n : nat) : bitcount n 0 = 0%nat.
Proof.
  induction n as [|n IH]; cbn [bitcount]; [|rewrite IH, Z.bits_0]; reflexivity.
Qed.

Lemma bitcount_mono (n n' : nat) (x : Z) :
  (n <= n')%nat -> (bitcount n x <= bitcount n' x)%nat.
Proof.
  induction 1 as [|n' _ IH]; [lia|]. cbn [bitcount]. lia.
Qed.

Lemma bitcount_lt (m n : nat) (x : Z) :
  Z.testbit x (Z.of_nat m) = true -> (m < n)%nat -> (bitcount m x < bitcount n x)%nat.
Proof.
  intros Hb Hlt.
  pose proof (bitcount_mono (S m) n x Hlt) as H.
  cbn [bitcount] in H. rewrite Hb in H. lia.
Qed.


Ltac case_cmp :=
  repeat match goal with
         | |- context [Z.ltb ?a ?b] => destruct (Z.ltb_spec a b)
         | |- context [Z.leb ?a ?b] => destruct (Z.leb_spec a b)
         | |- context [Z.eqb ?a ?b] => destruct (Z.eqb_spec a b)
         end.

Lemma bitcount_set (n : nat) (x x' m : Z) :
  (forall i, 0 <= i < Z.of_nat n -> Z.testbit x' i = Z.testbit x i || (i =? m)) ->
  Z.testbit x m = false ->
  bitcount n x' = (bitcount n x + among m n)%nat.
Proof.
  intros H Hm. unfold among. induction n as [|n IH].
  - cbn [bitcount]. case_cmp; cbn; lia.
  - cbn [bitcount]. rewrite IH, H by (try intros; try apply H; lia).
    destruct (Z.eqb_spec (Z.of_nat n) m) as [E|NE].
    + assert (Hn : Z.testbit x (Z.of_nat n) = false) by (rewrite E; exact Hm).
      rewrite Hn. case_cmp; cbn; lia.
    + rewrite orb_false_r. case_cmp; cbn; lia.
Qed.

Lemma bitcount_clear (n : nat) (x x' m : Z) :
  (forall i, 0 <= i < Z.of_nat n -> Z.testbit x' i = Z.testbit x i && negb (i =? m)) ->
  Z.testbit x m = true ->
  (bitcount n x' + among m n)%nat = bitcount n x.
Proof.
  intros H Hm. unfold among. induction n as [|n IH].
  - cbn [bitcount]. case_cmp; cbn; lia.
  - cbn [bitcount]. rewrite <- IH, H by (try intros; try apply H; lia).
    destruct (Z.eqb_spec (Z.of_nat n) m) as [E|NE].
    + assert (Hn : Z.testbit x (Z.of_nat n) = true) by (rewrite E; exact Hm).
      rewrite Hn. case_cmp; cbn; lia.
    + rewrite andb_true_r. case_cmp; cbn; lia.
Qed.

Lemma bitcount_cover (n : nat) (x : Z) (j : nat) :
  (j < bitcount n x)%nat ->
  exists m, (m < n)%nat /\ Z.testbit x (Z.of_nat m) = true /\ bitcount m x = j.
Proof.
  induction n as [|n IH]; cbn [bitcount]; intros Hj; [lia|].
  destruct (Z.testbit x (Z.of_nat n)) eqn:Hb.
  - destruct (Nat.eq_dec j (bitcount n x)) as [->|Hne].
    + exists n. auto.
    + destruct IH as (m & ? & ? & ?); [lia|]. exists m. auto.
  - destruct IH as (m & ? & ? & ?); [lia|]. exists m. auto.
Qed.

Lemma rank_lt (bm m : Z) (n : nat) :
  0 <= m < Z.of_nat n -> Z.testbit bm m = true -> (rank bm m < bitcount n bm)%nat.
Proof.
  intros Hm Hb. unfold rank. apply bitcount_lt; [rewrite Z2Nat.id by lia; exact Hb | lia].
Qed.

Lemma rank_mono (bm m m' : Z) : 0 <= m <= m' -> (rank bm m <= rank bm m')%nat.
Proof. intros H. apply bitcount_mono. lia. Qed.

Lemma rank_lt_rank (bm m m' : Z) :
  0 <= m < m' -> Z.testbit bm m = true -> (rank bm m < rank bm m')%nat.
Proof.
  intros H Hb. unfold rank at 2. apply rank_lt; [lia | exact Hb].
Qed.

(** ** Array updates *)

Section ArrayLemmas.
Context {A : Type}.
Implicit Types (l : list A) (x : A).

Lemma length_array_set l i x : List.length (array_set l i x) = List.length l.
Proof.
  revert i. induction l as [|y l IH]; intros [|i]; cbn; auto.
Qed.

Lemma nth_error_array_set_eq l i x :
  (i < List.length l)%nat -> nth_error (array_set l i x) i = Some x.
Proof.
  revert i. induction l as [|y l IH]; intros [|i] H; cbn in *; try lia; auto.
  apply IH. lia.
Qed.

Lemma nth_error_array_set_neq l i j x :
  i <> j -> nth_error (array_set l i x) j = nth_error l j.
Proof.
  revert i j. induction l as [|y l IH]; intros [|i] [|j] H; cbn; auto; try lia.
Qed.

Lemma array_set_split l i x :
  (i < List.length l)%nat ->
  array_set l i x = firstn i l ++ x :: skipn (S i) l.
Proof.
  revert i. induction l as [|y l IH]; intros [|i] H; cbn in *; try lia; auto.
  f_equal. apply IH. lia.
Qed.

Lemma nth_error_insert_lt l r x j :
  (j < r)%nat -> (r <= List.length l)%nat ->
  nth_error (firstn r l ++ x :: skipn r l) j = nth_error l j.
Proof.
  intros Hj Hr.
  rewrite nth_error_app1 by (rewrite length_firstn; lia).
  rewrite nth_error_firstn. destruct (Nat.ltb_spec j r); [reflexivity|lia].
Qed.

Lemma nth_error_insert_eq l r x :
  (r <= List.length l)%nat ->
  nth_error (firstn r l ++ x :: skipn r l) r = Some x.
Proof.
  intros Hr.
  rewrite nth_error_app2 by (rewrite length_firstn; lia).
  rewrite length_firstn, Nat.min_l by lia.
  rewrite Nat.sub_diag. reflexivity.
Qed.

Lemma nth_error_insert_gt l r x j :
  (r <= j)%nat -> (r <= List.length l)%nat ->
  nth_error (firstn r l ++ x :: skipn r l) (S j) = nth_error l j.
Proof.
  intros Hj Hr.
  rewrite nth_error_app2 by (rewrite length_firstn; lia).
  rewrite length_firstn, Nat.min_l by lia.
  replace (S j - r)%nat with (S (j - r)) by lia. cbn [nth_error].
  rewrite nth_error_skipn. f_equal. lia.
Qed.

Lemma nth_error_delete_lt l r j :
  (j < r)%nat -> (r <= List.length l)%nat ->
  nth_error (firstn r l ++ skipn (r + 1) l) j = nth_error l j.
Proof.
  intros Hj Hr.
  rewrite nth_error_app1 by (rewrite length_firstn; lia).
  rewrite nth_error_firstn; destruct (Nat.ltb_spec j r); [reflexivity|lia].
Qed.

Lemma nth_error_delete_ge l r j :
  (r <= j)%nat -> (r <= List.length l)%nat ->
  nth_error (firstn r l ++ skipn (r + 1) l) j = nth_error l (S j).
Proof.
  intros Hj Hr.
  rewrite nth_error_app2 by (rewrite length_firstn; lia).
  rewrite length_firstn, Nat.min_l by lia.
  rewrite nth_error_skipn. f_equal. lia.
Qed.

Lemma length_insert l r x :
  List.length (firstn r l ++ x :: skipn r l) = S (List.length l).
Proof.
  rewrite length_app. cbn [List.length]. rewrite length_firstn, length_skipn. lia.
Qed.

Lemma length_delete l r :
  (r < List.length l)%nat ->
  S (List.length (firstn r l ++ skipn (r + 1) l)) = List.length l.
Proof.
  intros H. rewrite length_app, length_firstn, length_skipn. lia.
Qed.

End ArrayLemmas.

(** ** Children of a bitmap *)

Section SparseArray.
Context {A : Type}.
Variables (bm : Z) (cs : list A) (m : Z).
Hypothesis Hm : 0 <= m < 32.
Hypothesis Hlen : List.length cs = bitcount 32 bm.

Lemma rank_le_length (i : Z) : 0 <= i < 32 -> (rank bm i <= List.length cs)%nat.
Proof. intros Hi. rewrite Hlen. apply bitcount_mono. lia. Qed.

Lemma child_at_defined :
  Z.testbit bm m = true -> exists c, nth_error cs (rank bm m) = Some c.
Proof.
  intros Hb.
  destruct (nth_error cs (rank bm m)) as [c|] eqn:E; [eauto|].
  apply nth_error_None in E.
  pose proof (rank_lt bm m 32 ltac:(lia) Hb). lia.
Qed.

Lemma child_at_cover (j : nat) (c : A) :
  nth_error cs j = Some c ->
  exists i, 0 <= i < 32 /\ rank bm i = j /\ child_at bm cs i = Some c.
Proof.
  intros Hj.
  assert (Hlt : (j < bitcount 32 bm)%nat).
  { rewrite <- Hlen. apply nth_error_Some. congruence. }
  destruct (bitcount_cover 32 bm j Hlt) as (i & Hi & Hb & Hr).
  exists (Z.of_nat i). unfold child_at, rank. rewrite Nat2Z.id, Hb, Hr.
  repeat split; auto; lia.
Qed.

Section Insert.
Variables (bm' : Z) (x : A).
Hypothesis Hbits :
  forall i, 0 <= i < 32 -> Z.testbit bm' i = Z.testbit bm i || (i =? m).
Hypothesis Hfree : Z.testbit bm m = false.

Lemma rank_insert (i : Z) :
  0 <= i < 32 -> rank bm' i = (rank bm i + among m (Z.to_nat i))%nat.
Proof.
  intros Hi. apply bitcount_set; [|exact Hfree].
  intros j Hj. apply Hbits. lia.
Qed.

Lemma length_child_insert :
  List.length (firstn (rank bm m) cs ++ x :: skipn (rank bm m) cs) = bitcount 32 bm'.
Proof.
  rewrite length_insert, Hlen, (bitcount_set 32 bm bm' m Hbits Hfree).
  unfold among. case_cmp; cbn; lia.
Qed.

Lemma child_at_insert (i : Z) :
  0 <= i < 32 ->
  child_at bm' (firstn (rank bm m) cs ++ x :: skipn (rank bm m) cs) i
  = if i =? m then Some x else child_at bm cs i.
Proof.
  intros Hi. unfold child_at.
  rewrite Hbits, rank_insert by lia.
  pose proof (rank_le_length m Hm) as Hr.
  destruct (Z.eqb_spec i m) as [->|Hne].
  - rewrite orb_true_r. unfold among.
    replace (m <? Z.of_nat (Z.to_nat m)) with false by (symmetry; apply Z.ltb_ge; lia).
    rewrite andb_false_r, Nat.add_0_r.
    apply nth_error_insert_eq. exact Hr.
  - rewrite orb_false_r.
    destruct (Z.testbit bm i) eqn:Hb; [|reflexivity].
    unfold among. destruct (Z.ltb_spec m (Z.of_nat (Z.to_nat i))).
    + replace (0 <=? m) with true by (symmetry; apply Z.leb_le; lia).
      cbn [andb]. rewrite Nat.add_1_r.
      apply nth_error_insert_gt; [apply rank_mono; lia | exact Hr].
    + rewrite andb_false_r, Nat.add_0_r.
      apply nth_error_insert_lt; [apply rank_lt_rank; [lia | exact Hb] | exact Hr].
Qed.

End Insert.

Section Replace.
Variable x : A.
Hypothesis Hset : Z.testbit bm m = true.

Lemma child_at_replace (i : Z) :
  0 <= i < 32 ->
  child_at bm (array_set cs (rank bm m) x) i
  = if i =? m then Some x else child_at bm cs i.
Proof.
  intros Hi. unfold child_at.
  destruct (Z.eqb_spec i m) as [->|Hne].
  - rewrite Hset. apply nth_error_array_set_eq.
    rewrite Hlen. apply rank_lt; [lia | exact Hset].
  - destruct (Z.testbit bm i) eqn:Hb; [|reflexivity].
    apply nth_error_array_set_neq.
    destruct (Z.lt_total i m) as [Hlt|[Heq|Hgt]]; [|lia|].
    + pose proof (rank_lt_rank bm i m ltac:(lia) Hb). lia.
    + pose proof (rank_lt_rank bm m i ltac:(lia) Hset). lia.
Qed.

End Replace.

Section Delete.
Variable bm' : Z.
Hypothesis Hbits :
  forall i, 0 <= i < 32 -> Z.testbit bm' i = Z.testbit bm i && negb (i =? m).
Hypothesis Hset : Z.testbit bm m = true.

Lemma rank_delete (i : Z) :
  0 <= i < 32 -> (rank bm' i + among m (Z.to_nat i))%nat = rank bm i.
Proof.
  intros Hi. apply bitcount_clear; [|exact Hset].
  intros j Hj. apply Hbits. lia.
Qed.

Lemma length_child_delete :
  List.length (firstn (rank bm m) cs ++ skipn (rank bm m + 1) cs) = bitcount 32 bm'.
Proof.
  pose proof (rank_lt bm m 32 ltac:(lia) Hset) as Hr.
  pose proof (length_delete cs (rank bm m) ltac:(lia)) as Hl.
  pose proof (bitcount_clear 32 bm bm' m Hbits Hset) as Hc.
  unfold among in Hc.
  replace ((0 <=? m) && (m <? Z.of_nat 32)) with true in Hc
    by (symmetry; apply andb_true_intro; split; [apply Z.leb_le | apply Z.ltb_lt]; lia).
  lia.
Qed.

Lemma child_at_delete (i : Z) :
  0 <= i < 32 ->
  child_at bm' (firstn (rank bm m) cs ++ skipn (rank bm m + 1) cs) i
  = if i =? m then None else child_at bm cs i.
Proof.
  intros Hi. unfold child_at.
  rewrite Hbits by lia.
  pose proof (rank_le_length m Hm) as Hr.
  pose proof (rank_delete i Hi) as Hd.
  destruct (Z.eqb_spec i m) as [->|Hne].
  - cbn [negb]. rewrite andb_false_r. reflexivity.
  - cbn [negb]. rewrite andb_true_r.
    destruct (Z.testbit bm i) eqn:Hb; [|reflexivity].
    unfold among in Hd. destruct (Z.ltb_spec m (Z.of_nat (Z.to_nat i))).
    + replace (0 <=? m) with true in Hd by (symmetry; apply Z.leb_le; lia).
      cbn [andb] in Hd.
      pose proof (rank_lt_rank bm m i ltac:(lia) Hset).
      rewrite nth_error_delete_ge by lia.
      f_equal. lia.
    + rewrite andb_false_r in Hd.
      pose proof (rank_lt_rank bm i m ltac:(lia) Hb).
      rewrite nth_error_delete_lt by lia.
      f_equal. lia.
Qed.

End Delete.

End SparseArray.

Lemma child_at_In {A : Type} (bm : Z) (cs : list A) (m : Z) (c : A) :
  child_at bm cs m = Some c -> In c cs.
Proof.
  unfold child_at. destruct (Z.testbit bm m); [|discriminate].
  apply nth_error_In.
Qed.

(** The one-child and two-child arrays built by [mergeLeaves]. *)
Lemma child_at_single {A : Type} (m : Z) (a : A) :
  0 <= m < 32 ->
  List.length [a] = bitcount 32 (2^m) /\
  forall i, 0 <= i < 32 -> child_at (2^m) [a] i = if i =? m then Some a else None.
Proof.
  intros Hm.
  assert (Hbits : forall i, 0 <= i < 32 -> Z.testbit (2^m) i = Z.testbit 0 i || (i =? m)).
  { intros i Hi. rewrite testbit_pow2, Z.bits_0 by lia. reflexivity. }
  assert (Hr : rank 0 m = 0%nat) by apply bitcount_zero.
  split.
  - pose proof (length_child_insert 0 [] m Hm (eq_sym (bitcount_zero 32)) (2^m) a
                  Hbits (Z.bits_0 m)) as H.
    rewrite Hr in H. exact H.
  - intros i Hi.
    pose proof (child_at_insert 0 [] m Hm (eq_sym (bitcount_zero 32)) (2^m) a
                  Hbits (Z.bits_0 m) i Hi) as H.
    rewrite Hr in H. cbn [firstn skipn app] in H. rewrite H.
    destruct (i =? m); [reflexivity|].
    unfold child_at. rewrite Z.bits_0. reflexivity.
Qed.

Lemma child_at_pair {A : Type} (m1 m2 : Z) (a b : A) :
  0 <= m1 < 32 -> 0 <= m2 < 32 -> m1 <> m2 ->
  let cs := if m1 <? m2 then [a; b] else [b; a] in
  List.length cs = bitcount 32 (JS.or (2^m1) (2^m2)) /\
  forall i, 0 <= i < 32 ->
    child_at (JS.or (2^m1) (2^m2)) cs i
    = if i =? m2 then Some b else if i =? m1 then Some a else None.
Proof.
  intros H1 H2 Hne cs.
  destruct (child_at_single m1 a H1) as [Hlen Hat].
  assert (Hfree : Z.testbit (2^m1) m2 = false).
  { rewrite testbit_pow2 by lia. apply Z.eqb_neq. lia. }
  assert (Hr : rank (2^m1) m2 = if m1 <? m2 then 1%nat else 0%nat).
  { unfold rank.
    rewrite (bitcount_set (Z.to_nat m2) 0 (2^m1) m1), bitcount_zero.
    - unfold among. rewrite Z2Nat.id by lia.
      replace (0 <=? m1) with true by (symmetry; apply Z.leb_le; lia).
      reflexivity.
    - intros i Hi. rewrite testbit_pow2, Z.bits_0 by lia. reflexivity.
    - apply Z.bits_0. }
  assert (Ecs : cs = firstn (rank (2^m1) m2) [a] ++ b :: skipn (rank (2^m1) m2) [a]).
  { unfold cs. rewrite Hr. destruct (m1 <? m2); reflexivity. }
  rewrite Ecs. split.
  - apply (length_child_insert (2^m1) [a] m2 H2 Hlen); [|exact Hfree].
    intros i Hi. apply testbit_or_bit; lia.
  - intros i Hi.
    rewrite (child_at_insert (2^m1) [a] m2 H2 Hlen (JS.or (2^m1) (2^m2)) b); auto.
    + rewrite Hat by lia. reflexivity.
    + intros j Hj. apply testbit_or_bit; lia.
Qed.

(** * Well-formed tries *)

Section Calls.
Context {V : Type}.

(** ** The recursive calls, by branch *)

Lemma lookupNode_Internal bitmap (children : list (HAMTNode V)) h s key :
  lookupNode (Internal bitmap children) h s key =
  if Z.testbit bitmap (maskHash h s) then
    match nth_error children (rank bitmap (maskHash h s)) with
    | Some c => lookupNode c h (s + 5) key
    | None => TypeError
    end
  else Ok None.
Proof.
  cbn [lookupNode]. unfold lookupInternalNode.
  rewrite bit_test, idx_rank, nth_error_map.
  destruct (Z.testbit bitmap (maskHash h s)); cbn [negb]; [|reflexivity].
  destruct (nth_error children _); reflexivity.
Qed.

Lemma lookupNode_child bitmap (children : list (HAMTNode V)) h s key :
  List.length children = bitcount 32 bitmap ->
  lookupNode (Internal bitmap children) h s key =
  match child_at bitmap children (maskHash h s) with
  | Some c => lookupNode c h (s + 5) key
  | None => Ok None
  end.
Proof.
  intros Hlen. rewrite lookupNode_Internal. unfold child_at.
  destruct (Z.testbit bitmap (maskHash h s)) eqn:Hb; [|reflexivity].
  destruct (child_at_defined bitmap children _ (maskHash_range h s) Hlen Hb) as [c ->].
  reflexivity.
Qed.

Lemma updateNode_Internal fuel bitmap (children : list (HAMTNode V)) h s key (value : V) :
  updateNode fuel (Internal bitmap children) h s key value =
  if Z.testbit bitmap (maskHash h s) then
    match nth_error children (rank bitmap (maskHash h s)) with
    | None => TypeError
    | Some child =>
        '(newChild, inserted, same) <- updateNode fuel child h (s + 5) key value ;;
        if same : bool then Ok (Internal bitmap children, false, true)
        else Ok (Internal bitmap
                   (array_set children (rank bitmap (maskHash h s)) newChild),
                 inserted, false)
    end
  else
    Ok (Internal (JS.or bitmap (bitpos h s))
          (firstn (rank bitmap (maskHash h s)) children
           ++ Leaf (createLeaf h key value)
           :: skipn (rank bitmap (maskHash h s)) children),
        true, false).
Proof.
  cbn [updateNode]. unfold updateInternalNode, createInternal.
  rewrite bit_test, idx_rank, nth_error_map, negb_involutive.
  destruct (Z.testbit bitmap (maskHash h s)); [|reflexivity].
  destruct (nth_error children _); reflexivity.
Qed.

Lemma removeNode_Internal bitmap (children : list (HAMTNode V)) h s key :
  removeNode (Internal bitmap children) h s key =
  if Z.testbit bitmap (maskHash h s) then
    match nth_error children (rank bitmap (maskHash h s)) with
    | None => TypeError
    | Some child =>
        '(newChild, deleted) <- removeNode child h (s + 5) key ;;
        if negb deleted then Ok (Some (Internal bitmap children), false)
        else
          match newChild with
          | None =>
              if JS.and bitmap (JS.not (bitpos h s)) =? 0 then Ok (None, true)
              else
                Ok (Some (Internal (JS.and bitmap (JS.not (bitpos h s)))
                            (firstn (rank bitmap (maskHash h s)) children
                             ++ skipn (rank bitmap (maskHash h s) + 1) children)),
                    true)
          | Some c =>
              Ok (Some (Internal bitmap
                          (array_set children (rank bitmap (maskHash h s)) c)),
                  true)
          end
    end
  else Ok (Some (Internal bitmap children), false).
Proof.
  cbn [removeNode]. unfold removeInternalNode, createInternal.
  rewrite bit_test, idx_rank, nth_error_map.
  destruct (Z.testbit bitmap (maskHash h s)); cbn [negb]; [|reflexivity].
  destruct (nth_error children _); reflexivity.
Qed.

End Calls.

(** ** Prefixes *)

Lemma shift_succ (d : nat) : 5 * Z.of_nat d + 5 = 5 * Z.of_nat (S d).
Proof. lia. Qed.

Lemma maskHash_depth (d : nat) (h : Z) :
  (d <= 6)%nat -> 0 <= h < 2^32 ->
  maskHash h (5 * Z.of_nat d) = (h / 2 ^ (5 * Z.of_nat d)) mod 32.
Proof.
  intros Hd Hh. rewrite maskHash_spec.
  rewrite (Z.mod_small h) by lia.
  rewrite (Z.mod_small (5 * Z.of_nat d)) by lia.
  reflexivity.
Qed.

Lemma pre_succ (d : nat) (h : Z) :
  (d <= 6)%nat -> 0 <= h < 2^32 ->
  pre (S d) h = pre d h + maskHash h (5 * Z.of_nat d) * 2 ^ (5 * Z.of_nat d).
Proof.
  intros Hd Hh. rewrite maskHash_depth by assumption. unfold pre.
  replace (5 * Z.of_nat (S d)) with (5 * Z.of_nat d + 5) by lia.
  rewrite Z.pow_add_r by lia.
  assert (0 < 2 ^ (5 * Z.of_nat d)) by (apply Z.pow_pos_nonneg; lia).
  change (2^5) with 32.
  rewrite Z.rem_mul_r by lia. lia.
Qed.

Lemma pre_7 (h : Z) : 0 <= h < 2^32 -> pre 7 h = h.
Proof.
  intros Hh. unfold pre. apply Z.mod_small.
  change (5 * Z.of_nat 7) with 35. lia.
Qed.

Lemma pre_0 (h : Z) : pre 0 h = 0.
Proof. unfold pre. cbn. apply Z.mod_1_r. Qed.

(** * Entries of a leaf *)

Section Entries.
Context {V : Type}.
Implicit Types (l : list (string * V)) (k : string) (v : V).

Lemma key_is_true k (e : string * V) : key_is k e = true <-> fst e = k.
Proof. unfold key_is. apply String.eqb_eq. Qed.

Lemma key_is_false k (e : string * V) : key_is k e = false <-> fst e <> k.
Proof. unfold key_is. apply String.eqb_neq. Qed.

Lemma key_is_same k v : key_is k (k, v) = true.
Proof. apply key_is_true. reflexivity. Qed.

Lemma find_key_None k l : find (key_is k) l = None <-> ~ In k (map fst l).
Proof.
  induction l as [|e l IH]; cbn [find map In]; [tauto|].
  destruct (key_is k e) eqn:E.
  - apply key_is_true in E. split; [discriminate | intros H; exfalso; auto].
  - apply key_is_false in E. rewrite IH. tauto.
Qed.

Lemma findIndex_range (p : string * V -> bool) l :
  findIndex p l = -1 \/ 0 <= findIndex p l < Z.of_nat (List.length l).
Proof.
  induction l as [|e l IH]; cbn [findIndex List.length]; [auto|].
  destruct (p e); [right; lia|].
  destruct (Z.eqb_spec (findIndex p l) (-1)); [auto | right; lia].
Qed.

Lemma findIndex_find (p : string * V -> bool) l :
  findIndex p l = -1 <-> find p l = None.
Proof.
  induction l as [|e l IH]; cbn [findIndex find]; [tauto|].
  destruct (p e); [split; [lia | discriminate]|].
  destruct (Z.eqb_spec (findIndex p l) (-1)) as [E|NE]; [tauto|].
  pose proof (findIndex_range p l). split; [lia | tauto].
Qed.

(** Overwriting the entry found by [findIndex]. *)
Lemma find_overwrite k v k' l :
  findIndex (key_is k) l <> -1 ->
  find (key_is k') (array_set l (Z.to_nat (findIndex (key_is k) l)) (k, v))
  = if (k' =? k)%string then Some (k, v) else find (key_is k') l.
Proof.
  induction l as [|e l IH]; cbn [findIndex]; [lia|].
  destruct (key_is k e) eqn:E.
  - intros _. cbn [Z.to_nat array_set find].
    apply key_is_true in E.
    unfold key_is. cbn [fst]. rewrite E, (String.eqb_sym k k').
    destruct (k' =? k)%string; reflexivity.
  - destruct (Z.eqb_spec (findIndex (key_is k) l) (-1)) as [|NE]; [lia|].
    intros _. pose proof (findIndex_range (key_is k) l).
    replace (Z.to_nat (findIndex (key_is k) l + 1))
      with (S (Z.to_nat (findIndex (key_is k) l))) by lia.
    cbn [array_set find].
    destruct (key_is k' e) eqn:E'.
    + apply key_is_true in E'. apply key_is_false in E.
      replace (k' =? k)%string with false; [reflexivity|].
      symmetry. apply String.eqb_neq. congruence.
    + apply IH. exact NE.
Qed.

Lemma keys_overwrite k v l :
  findIndex (key_is k) l <> -1 ->
  map fst (array_set l (Z.to_nat (findIndex (key_is k) l)) (k, v)) = map fst l.
Proof.
  induction l as [|e l IH]; cbn [findIndex]; [lia|].
  destruct (key_is k e) eqn:E.
  - intros _. cbn. apply key_is_true in E. congruence.
  - destruct (Z.eqb_spec (findIndex (key_is k) l) (-1)) as [|NE]; [lia|].
    intros _. pose proof (findIndex_range (key_is k) l).
    replace (Z.to_nat (findIndex (key_is k) l + 1))
      with (S (Z.to_nat (findIndex (key_is k) l))) by lia.
    cbn [array_set map]. f_equal. apply IH. exact NE.
Qed.

Lemma find_append k v k' l :
  find (key_is k) l = None ->
  find (key_is k') (l ++ [(k, v)])
  = if (k' =? k)%string then Some (k, v) else find (key_is k') l.
Proof.
  intros Hnone. induction l as [|e l IH]; cbn [app find].
  - unfold key_is. cbn [fst]. rewrite (String.eqb_sym k k').
    destruct (k' =? k)%string; reflexivity.
  - cbn [find] in Hnone. destruct (key_is k e) eqn:E; [discriminate|].
    destruct (key_is k' e) eqn:E'.
    + apply key_is_true in E'. apply key_is_false in E.
      replace (k' =? k)%string with false; [reflexivity|].
      symmetry. apply String.eqb_neq. congruence.
    + apply IH. exact Hnone.
Qed.

(** Filtering a key out. *)
Lemma find_filter k k' l :
  find (key_is k') (filter (fun e => negb (key_is k e)) l)
  = if (k' =? k)%string then None else find (key_is k') l.
Proof.
  induction l as [|e l IH]; cbn [filter find].
  - destruct (k' =? k)%string; reflexivity.
  - destruct (key_is k e) eqn:E; cbn [negb find].
    + rewrite IH. apply key_is_true in E.
      destruct (String.eqb_spec k' k) as [->|Hne]; [reflexivity|].
      replace (key_is k' e) with false; [reflexivity|].
      symmetry. apply key_is_false. congruence.
    + destruct (key_is k' e) eqn:E'; [|exact IH].
      apply key_is_true in E'. apply key_is_false in E.
      replace (k' =? k)%string with false; [reflexivity|].
      symmetry. apply String.eqb_neq. congruence.
Qed.

Lemma length_filter_key k l :
  NoDup (map fst l) ->
  (List.length (filter (fun e => negb (key_is k e)) l)
   + match find (key_is k) l with Some _ => 1 | None => 0 end)%nat = List.length l.
Proof.
  induction l as [|e l IH]; cbn [map filter find List.length]; intros Hnd; [reflexivity|].
  inversion Hnd as [|? ? Hnotin Hnd']; subst.
  specialize (IH Hnd').
  destruct (key_is k e) eqn:E; cbn [negb List.length].
  - apply key_is_true in E. subst k.
    apply find_key_None in Hnotin. rewrite Hnotin in IH. lia.
  - lia.
Qed.

Lemma filter_key_absent k l :
  find (key_is k) l = None -> filter (fun e => negb (key_is k e)) l = l.
Proof.
  induction l as [|e l IH]; cbn [filter find]; [reflexivity|].
  destruct (key_is k e); [discriminate|]. cbn [negb]. intros H. f_equal. auto.
Qed.

Lemma NoDup_keys_filter (p : string * V -> bool) l :
  NoDup (map fst l) -> NoDup (map fst (filter p l)).
Proof.
  induction l as [|e l IH]; cbn [map filter]; intros Hnd; [constructor|].
  inversion Hnd as [|? ? Hnotin Hnd']; subst.
  destruct (p e); [|auto]. cbn [map]. constructor; [|auto].
  intros Hin. apply Hnotin.
  apply in_map_iff in Hin as (x & Hx & Hf). apply filter_In in Hf as [Hf _].
  apply in_map_iff. eauto.
Qed.

End Entries.

(** * Sums over children *)

Section Sums.
Context {A : Type}.
Variable g : A -> nat.

Lemma sum_insert (l : list A) (r : nat) (x : A) :
  list_sum (map g (firstn r l ++ x :: skipn r l)) = (g x + list_sum (map g l))%nat.
Proof.
  assert (E : list_sum (map g l)
              = (list_sum (map g (firstn r l)) + list_sum (map g (skipn r l)))%nat).
  { rewrite <- list_sum_app, <- map_app, firstn_skipn. reflexivity. }
  rewrite E, map_app, list_sum_app. unfold list_sum. cbn. lia.
Qed.

Lemma sum_delete (l : list A) (r : nat) (c : A) :
  nth_error l r = Some c ->
  list_sum (map g l)
  = (g c + list_sum (map g (firstn r l ++ skipn (r + 1) l)))%nat.
Proof.
  revert r. induction l as [|y l IH]; intros [|r] H; cbn in H; try discriminate.
  - injection H as ->. cbn. lia.
  - specialize (IH r H). unfold list_sum in *. cbn in *. lia.
Qed.

Lemma sum_replace (l : list A) (r : nat) (c x : A) :
  nth_error l r = Some c ->
  (list_sum (map g (array_set l r x)) + g c)%nat = (list_sum (map g l) + g x)%nat.
Proof.
  revert r. induction l as [|y l IH]; intros [|r] H; cbn in H; try discriminate.
  - injection H as ->. cbn. lia.
  - specialize (IH r H). unfold list_sum in *. cbn in *. lia.
Qed.

End Sums.

Section NodeFacts.
Context {V : Type}.
Implicit Types (l : LeafNode V) (node c : HAMTNode V).

Lemma length_toList_Internal bitmap (children : list (HAMTNode V)) :
  List.length (toList (Internal bitmap children))
  = list_sum (map (fun c => List.length (toList c)) children).
Proof.
  cbn [toList]. rewrite length_concat, map_map. reflexivity.
Qed.

Lemma wf_leaf_hash_range d p l : wf_node d p (Leaf l) -> 0 <= leaf_hash l < 2^32.
Proof.
  inversion 1 as [? ? ? _ Hne _ Hh _|]; subst.
  destruct (entries l) as [|e es]; [congruence|].
  rewrite <- (Hh e) by (left; reflexivity). apply hash_range.
Qed.

Lemma wf_leaf_deeper d p l :
  wf_node d p (Leaf l) -> (d <= 6)%nat ->
  wf_node (S d) (p + maskHash (leaf_hash l) (5 * Z.of_nat d) * 2 ^ (5 * Z.of_nat d))
    (Leaf l).
Proof.
  intros Hwf Hd. pose proof (wf_leaf_hash_range d p l Hwf) as Hr.
  inversion Hwf; subst. constructor; auto; [lia|].
  apply pre_succ; assumption.
Qed.

Lemma wf_new_leaf d k (v : V) :
  (d <= 7)%nat -> wf_node d (pre d (hash k)) (Leaf (createLeaf (hash k) k v)).
Proof.
  intros Hd. constructor; cbn; auto.
  - discriminate.
  - constructor; [intros []|constructor].
  - intros e [<-|[]]. reflexivity.
Qed.

Lemma lookup_new_leaf k (v : V) k' s :
  lookupNode (Leaf (createLeaf (hash k) k v)) (hash k') s k'
  = if (k' =? k)%string then Ok (Some v) else Ok None.
Proof.
  cbn [lookupNode]. unfold lookupLeafNode, createLeaf. cbn [leaf_hash entries find].
  unfold key_is. cbn [fst]. rewrite (String.eqb_sym k k').
  destruct (String.eqb_spec k' k) as [->|Hne].
  - rewrite Z.eqb_refl. reflexivity.
  - destruct (hash k =? hash k'); reflexivity.
Qed.

Lemma lookupLeaf_mask_ne l h s k :
  maskHash h s <> maskHash (leaf_hash l) s -> lookupLeafNode l h k = None.
Proof.
  intros Hne. unfold lookupLeafNode.
  destruct (Z.eqb_spec (leaf_hash l) h) as [E|]; [|reflexivity].
  exfalso. apply Hne. rewrite E. reflexivity.
Qed.

Lemma wf_prefix_range d p node : wf_node d p node -> 0 <= p < 2 ^ (5 * Z.of_nat d).
Proof.
  inversion 1; subst; [|assumption].
  apply Z.mod_pos_bound, Z.pow_pos_nonneg; lia.
Qed.

(** At depth 7 the prefix is the whole hash. *)
Lemma wf_leaf_depth d p l k :
  wf_node d p (Leaf l) -> leaf_hash l <> hash k -> pre d (hash k) = p -> (d <= 6)%nat.
Proof.
  intros Hwf Hne Hpre.
  pose proof (wf_leaf_hash_range d p l Hwf) as Hr.
  inversion Hwf as [? ? ? Hd _ _ _ Hp|]; subst.
  destruct (le_lt_dec d 6) as [|Hgt]; [assumption|].
  assert (d = 7%nat) by lia. subst d.
  rewrite (pre_7 _ Hr), (pre_7 _ (hash_range k)) in Hp. congruence.
Qed.

Section Merge.
Variables (k : string) (v : V).

Lemma mergeLeaves_spec (fuel : nat) :
  forall d p l,
    wf_node d p (Leaf l) -> leaf_hash l <> hash k -> pre d (hash k) = p ->
    (7 - d <= fuel)%nat ->
    exists n',
      mergeLeaves fuel (5 * Z.of_nat d) l (hash k) k v = Ok n'
      /\ wf_node d p n'
      /\ (forall k', lookupNode n' (hash k') (5 * Z.of_nat d) k'
                     = if (k' =? k)%string then Ok (Some v)
                       else Ok (lookupLeafNode l (hash k') k'))
      /\ List.length (toList n') = S (List.length (entries l)).
Proof.
  induction fuel as [|fuel IH]; intros d p l Hwf Hne Hpre Hfuel;
    pose proof (wf_leaf_depth d p l k Hwf Hne Hpre) as Hd; [lia|].
  cbn [mergeLeaves].
  pose proof (maskHash_range (leaf_hash l) (5 * Z.of_nat d)) as Hm1.
  pose proof (maskHash_range (hash k) (5 * Z.of_nat d)) as Hm2.
  pose proof (wf_leaf_deeper d p l Hwf Hd) as Hdeep.
  pose proof (wf_prefix_range d p _ Hwf) as Hrg.
  rewrite bitpos_lt.
  destruct (Z.eqb_spec (bitpos (leaf_hash l) (5 * Z.of_nat d))
              (bitpos (hash k) (5 * Z.of_nat d))) as [Eb|Nb].
  - apply bitpos_inj in Eb.
    destruct (IH (S d) (p + maskHash (hash k) (5 * Z.of_nat d) * 2 ^ (5 * Z.of_nat d)) l)
      as (inner & Hrun & Hwfi & Hlk & Hlen).
    + rewrite <- Eb. exact Hdeep.
    + exact Hne.
    + rewrite <- Hpre. apply pre_succ; [assumption | apply hash_range].
    + lia.
    + rewrite shift_succ, Hrun. cbn [bind]. eexists. split; [reflexivity|].
      unfold createInternal. rewrite bitpos_spec.
      destruct (child_at_single (maskHash (leaf_hash l) (5 * Z.of_nat d)) inner Hm1)
        as [Hlen1 Hat].
      split; [|split].
      * constructor; auto; [discriminate|].
        intros m c Hmr Hc. rewrite Hat in Hc by lia.
        destruct (Z.eqb_spec m (maskHash (leaf_hash l) (5 * Z.of_nat d))) as [->|];
          [|discriminate].
        injection Hc as <-. rewrite Eb. exact Hwfi.
      * intros k'. rewrite lookupNode_child by exact Hlen1.
        rewrite Hat by apply maskHash_range.
        destruct (Z.eqb_spec (maskHash (hash k') (5 * Z.of_nat d))
                    (maskHash (leaf_hash l) (5 * Z.of_nat d))) as [E|NE].
        -- rewrite shift_succ. apply Hlk.
        -- destruct (String.eqb_spec k' k) as [->|]; [congruence|].
           f_equal. symmetry. apply (lookupLeaf_mask_ne l _ (5 * Z.of_nat d)). exact NE.
      * cbn [toList map List.concat]. rewrite app_nil_r. exact Hlen.
  - assert (Hmne : maskHash (leaf_hash l) (5 * Z.of_nat d)
                   <> maskHash (hash k) (5 * Z.of_nat d)).
    { intros E. apply Nb. rewrite !bitpos_spec, E. reflexivity. }
    eexists. split; [reflexivity|].
    unfold createInternal. rewrite !bitpos_spec.
    destruct (child_at_pair _ _ (Leaf l) (Leaf (createLeaf (hash k) k v)) Hm1 Hm2 Hmne)
      as [Hlen2 Hat].
    split; [|split].
    + constructor; auto.
      * destruct (_ <? _); discriminate.
      * intros m c Hmr Hc. rewrite Hat in Hc by lia.
        destruct (Z.eqb_spec m (maskHash (hash k) (5 * Z.of_nat d))) as [->|].
        -- injection Hc as <-. rewrite <- Hpre, <- pre_succ by (auto using hash_range).
           apply wf_new_leaf. lia.
        -- destruct (Z.eqb_spec m (maskHash (leaf_hash l) (5 * Z.of_nat d))) as [->|];
             [|discriminate].
           injection Hc as <-. exact Hdeep.
    + intros k'. rewrite lookupNode_child by exact Hlen2.
      rewrite Hat by apply maskHash_range.
      destruct (Z.eqb_spec (maskHash (hash k') (5 * Z.of_nat d))
                  (maskHash (hash k) (5 * Z.of_nat d))) as [E2|NE2].
      * rewrite lookup_new_leaf.
        destruct (k' =? k)%string; [reflexivity|].
        f_equal. symmetry. apply (lookupLeaf_mask_ne l _ (5 * Z.of_nat d)). congruence.
      * destruct (String.eqb_spec k' k) as [->|]; [congruence|].
        destruct (Z.eqb_spec (maskHash (hash k') (5 * Z.of_nat d))
                    (maskHash (leaf_hash l) (5 * Z.of_nat d))) as [E1|NE1].
        -- reflexivity.
        -- f_equal. symmetry. apply (lookupLeaf_mask_ne l _ (5 * Z.of_nat d)). exact NE1.
    + destruct (_ <? _); cbn [toList map List.concat createLeaf entries];
        rewrite ?length_app; cbn [List.length]; lia.
Qed.

End Merge.

End NodeFacts.

Section UpdateSpec.
Context {V : Type}.
Variables (k : string) (v : V).

(** What [updateNode] does to a well-formed subtree on the path of [k]. *)
Lemma updateNode_spec (fuel : nat) (node : HAMTNode V) :
  forall d p,
    wf_node d p node -> pre d (hash k) = p -> (7 - d <= fuel)%nat ->
    exists n' ins,
      updateNode fuel node (hash k) (5 * Z.of_nat d) k v = Ok (n', ins, false)
      /\ wf_node d p n'
      /\ (forall k', lookupNode n' (hash k') (5 * Z.of_nat d) k'
                     = if (k' =? k)%string then Ok (Some v)
                       else lookupNode node (hash k') (5 * Z.of_nat d) k')
      /\ List.length (toList n')
         = (List.length (toList node) + if ins then 1 else 0)%nat
      /\ (ins = true <-> lookupNode node (hash k) (5 * Z.of_nat d) k = Ok None).
Proof.
  induction node as [l|bitmap children IH] using HAMTNode_ind';
    intros d p Hwf Hpre Hfuel; subst p.
  - (* Leaf *)
    cbn [updateNode lookupNode toList]. unfold updateLeafNode.
    destruct (Z.eqb_spec (leaf_hash l) (hash k)) as [Eh|Nh].
    + inversion Hwf as [? ? ? Hd Hne Hnd Hh Hp|]; subst.
      destruct (Z.eqb_spec (findIndex (key_is k) (entries l)) (-1)) as [Ei|Ni];
        cbn [negb].
      * (* append *)
        apply findIndex_find in Ei.
        eexists _, true. split; [reflexivity|]. cbn [toList entries].
        split; [|split; [|split]].
        -- constructor; cbn [leaf_hash entries]; auto.
           ++ destruct (entries l); discriminate.
           ++ rewrite map_app. cbn [map fst].
              apply NoDup_app; auto.
              ** constructor; [intros []|constructor].
              ** intros x Hx [<-|[]]. apply find_key_None in Ei. auto.
           ++ intros e He. apply in_app_or in He as [He|[<-|[]]]; auto.
        -- intros k'. cbn [lookupNode]. unfold lookupLeafNode. cbn [leaf_hash entries].
           rewrite find_append by exact Ei.
           destruct (String.eqb_spec k' k) as [->|]; [|reflexivity].
           rewrite Eh, Z.eqb_refl. reflexivity.
        -- rewrite length_app. reflexivity.
        -- unfold lookupLeafNode. rewrite Eh, Z.eqb_refl, Ei. tauto.
      * (* overwrite *)
        eexists _, false. split; [reflexivity|]. cbn [toList entries].
        split; [|split; [|split]].
        -- constructor; cbn [leaf_hash entries]; auto.
           ++ intros E. apply (f_equal (@List.length _)) in E.
              rewrite length_array_set in E. destruct (entries l); [congruence|discriminate].
           ++ rewrite keys_overwrite by exact Ni. exact Hnd.
           ++ intros e He.
              assert (Hin : In (fst e) (map fst (entries l))).
              { rewrite <- (keys_overwrite k v) by exact Ni. apply in_map. exact He. }
              apply in_map_iff in Hin as (e' & Hf & He'). rewrite <- Hf. auto.
        -- intros k'. cbn [lookupNode]. unfold lookupLeafNode. cbn [leaf_hash entries].
           rewrite find_overwrite by exact Ni.
           destruct (String.eqb_spec k' k) as [->|]; [|reflexivity].
           rewrite Eh, Z.eqb_refl. reflexivity.
        -- rewrite length_array_set. lia.
        -- unfold lookupLeafNode. rewrite Eh, Z.eqb_refl.
           destruct (find (key_is k) (entries l)) eqn:Ef.
           ++ split; discriminate.
           ++ apply findIndex_find in Ef. contradiction.
    + (* split *)
      destruct (mergeLeaves_spec k v fuel d _ l Hwf Nh eq_refl Hfuel)
        as (n' & Hrun & Hwf' & Hlk & Hlen).
      rewrite Hrun. cbn [bind].
      eexists _, true. split; [reflexivity|].
      split; [exact Hwf'|split; [|split]].
      * intros k'. rewrite Hlk. reflexivity.
      * rewrite Hlen. lia.
      * unfold lookupLeafNode.
        destruct (Z.eqb_spec (leaf_hash l) (hash k)); [contradiction|tauto].
  - (* Internal *)
    inversion Hwf as [|? ? ? ? Hd Hrg Hne Hlen Hch]; subst.
    pose proof (maskHash_range (hash k) (5 * Z.of_nat d)) as Hm.
    rewrite updateNode_Internal.
    rewrite (lookupNode_child _ _ (hash k)) by exact Hlen.
    unfold child_at.
    destruct (Z.testbit bitmap (maskHash (hash k) (5 * Z.of_nat d))) eqn:Hb.
    + (* the branch is occupied *)
      destruct (child_at_defined bitmap children _ Hm Hlen Hb) as [c Hc].
      rewrite Hc.
      assert (Hat : child_at bitmap children (maskHash (hash k) (5 * Z.of_nat d)) = Some c)
        by (unfold child_at; rewrite Hb; exact Hc).
      rewrite Forall_forall in IH.
      destruct (IH c (nth_error_In _ _ Hc) (S d) _ (Hch _ c Hm Hat))
        as (c' & ins & Hrun & Hwf' & Hlk & Hlen' & Hins).
      * apply pre_succ; [assumption | apply hash_range].
      * lia.
      * rewrite shift_succ, Hrun. cbn [bind].
        exists (Internal bitmap
                  (array_set children (rank bitmap (maskHash (hash k) (5 * Z.of_nat d))) c')),
          ins.
        split; [reflexivity|].
        assert (Hlen2 : List.length
                          (array_set children
                             (rank bitmap (maskHash (hash k) (5 * Z.of_nat d))) c')
                        = bitcount 32 bitmap)
          by (rewrite length_array_set; exact Hlen).
        split; [|split; [|split]].
        -- constructor; auto.
           ++ intros E. apply (f_equal (@List.length _)) in E.
              rewrite length_array_set in E. destruct children; [congruence|discriminate].
           ++ intros m x Hmr Hx.
              rewrite (child_at_replace bitmap children _ Hm Hlen c' Hb) in Hx by lia.
              destruct (Z.eqb_spec m (maskHash (hash k) (5 * Z.of_nat d))) as [->|].
              ** injection Hx as <-. exact Hwf'.
              ** apply Hch; assumption.
        -- intros k'. rewrite !lookupNode_child by assumption.
           rewrite (child_at_replace bitmap children _ Hm Hlen c' Hb)
             by apply maskHash_range.
           destruct (Z.eqb_spec (maskHash (hash k') (5 * Z.of_nat d))
                       (maskHash (hash k) (5 * Z.of_nat d))) as [E|NE].
           ++ rewrite E, Hat, shift_succ. apply Hlk.
           ++ destruct (String.eqb_spec k' k) as [->|]; [congruence|reflexivity].
        -- rewrite !length_toList_Internal.
           pose proof (sum_replace (fun c => List.length (toList c)) children _ c c' Hc).
           cbv beta in *. lia.
        -- exact Hins.
    + (* a free branch *)
      eexists _, true. split; [reflexivity|].
      assert (Hbits : forall i, 0 <= i < 32 ->
                Z.testbit (JS.or bitmap (bitpos (hash k) (5 * Z.of_nat d))) i
                = Z.testbit bitmap i || (i =? maskHash (hash k) (5 * Z.of_nat d))).
      { intros i Hi. rewrite bitpos_spec. apply testbit_or_bit; assumption. }
      pose proof (length_child_insert bitmap children _ Hm Hlen _
                    (Leaf (createLeaf (hash k) k v)) Hbits Hb) as Hlen2.
      split; [|split; [|split]].
      * constructor; auto.
        -- destruct (firstn _ children); discriminate.
        -- intros m x Hmr Hx.
           rewrite (child_at_insert bitmap children _ Hm Hlen _ _ Hbits Hb) in Hx by lia.
           destruct (Z.eqb_spec m (maskHash (hash k) (5 * Z.of_nat d))) as [->|].
           ++ injection Hx as <-.
              rewrite <- pre_succ by (auto using hash_range).
              apply wf_new_leaf. lia.
           ++ apply Hch; assumption.
      * intros k'. rewrite !lookupNode_child by assumption.
        rewrite (child_at_insert bitmap children _ Hm Hlen _ _ Hbits Hb)
          by apply maskHash_range.
        destruct (Z.eqb_spec (maskHash (hash k') (5 * Z.of_nat d))
                    (maskHash (hash k) (5 * Z.of_nat d))) as [E|NE].
        -- rewrite lookup_new_leaf.
           destruct (k' =? k)%string; [reflexivity|].
           unfold child_at. rewrite E, Hb. reflexivity.
        -- destruct (String.eqb_spec k' k) as [->|]; [congruence|reflexivity].
      * rewrite !length_toList_Internal, sum_insert. cbn [toList createLeaf entries List.length].
        lia.
      * tauto.
Qed.

End UpdateSpec.

Lemma bitcount_zero_bits (n : nat) (x i : Z) :
  bitcount n x = 0%nat -> 0 <= i < Z.of_nat n -> Z.testbit x i = false.
Proof.
  induction n as [|n IH]; intros Hc Hi; [lia|].
  cbn [bitcount] in Hc.
  destruct (Z.eq_dec i (Z.of_nat n)) as [->|Hne].
  - destruct (Z.testbit x (Z.of_nat n)); [lia|reflexivity].
  - apply IH; [|lia]. destruct (Z.testbit x (Z.of_nat n)); lia.
Qed.

Section RemoveSpec.
Context {V : Type}.
Variable k : string.

Lemma removeLeafNode_spec d p (l : LeafNode V) :
  wf_node d p (Leaf l) ->
  exists r del,
    removeLeafNode l (hash k) k = (r, del)
    /\ (forall n', r = Some n' -> wf_node d p n')
    /\ (forall k' s, lookupOpt r (hash k') s k'
                     = if (k' =? k)%string then Ok None
                       else Ok (lookupLeafNode l (hash k') k'))
    /\ (List.length (toListOpt r) + if del then 1 else 0)%nat = List.length (entries l)
    /\ (del = false -> r = Some (Leaf l))
    /\ (del = false <-> lookupLeafNode l (hash k) k = None).
Proof.
  intros Hwf. inversion Hwf as [? ? ? Hd Hne Hnd Hh Hp|]; subst.
  unfold removeLeafNode.
  destruct (Z.eqb_spec (leaf_hash l) (hash k)) as [Eh|Nh].
  - pose proof (length_filter_key k (entries l) Hnd) as Hlf.
    pose proof (fun k' => find_filter k k' (entries l)) as Hff.
    set (F := filter (fun e => negb (key_is k e)) (entries l)) in *.
    assert (Hlook : lookupLeafNode l (hash k) k
                    = match find (key_is k) (entries l) with
                      | Some e => Some (snd e) | None => None end).
    { unfold lookupLeafNode. rewrite Eh, Z.eqb_refl. reflexivity. }
    destruct (find (key_is k) (entries l)) as [e|] eqn:Ef.
    + destruct (Nat.eqb_spec (List.length F) 0) as [E0|N0].
      * (* the leaf is emptied *)
        exists None, true. split; [reflexivity|].
        split; [discriminate|]. split; [|split; [|split]].
        -- intros k' s. cbn [lookupOpt].
           destruct (String.eqb_spec k' k) as [->|Hk]; [reflexivity|].
           f_equal. unfold lookupLeafNode.
           destruct (leaf_hash l =? hash k'); [|reflexivity].
           specialize (Hff k'). apply String.eqb_neq in Hk. rewrite Hk in Hff.
           rewrite <- Hff. destruct F; [reflexivity|discriminate].
        -- cbn [toListOpt List.length]. lia.
        -- discriminate.
        -- rewrite Hlook. split; discriminate.
      * destruct (Nat.eqb_spec (List.length F) (List.length (entries l))) as [E1|N1];
          [lia|].
        eexists _, true. split; [reflexivity|].
        split; [|split; [|split; [|split]]].
        -- intros n' [= <-]. constructor; cbn [leaf_hash entries]; auto.
           ++ destruct F; [contradiction|discriminate].
           ++ apply NoDup_keys_filter. exact Hnd.
           ++ intros x Hx. apply filter_In in Hx as [Hx _]. auto.
        -- intros k' s. cbn [lookupOpt lookupNode]. unfold lookupLeafNode.
           cbn [leaf_hash entries]. fold F. rewrite Hff.
           destruct (k' =? k)%string; [|reflexivity].
           destruct (leaf_hash l =? hash k'); reflexivity.
        -- cbn [toListOpt toList entries]. fold F. exact Hlf.
        -- discriminate.
        -- rewrite Hlook. split; discriminate.
    + (* the key is absent *)
      assert (EF : List.length F = List.length (entries l)) by lia.
      destruct (Nat.eqb_spec (List.length F) 0) as [E0|N0].
      { exfalso. apply Hne, length_zero_iff_nil. lia. }
      rewrite EF, Nat.eqb_refl.
      exists (Some (Leaf l)), false. split; [reflexivity|].
      split; [|split; [|split; [|split]]].
      * intros n' [= <-]. exact Hwf.
      * intros k' s. cbn [lookupOpt lookupNode].
        destruct (String.eqb_spec k' k) as [->|]; [|reflexivity].
        rewrite Hlook. reflexivity.
      * cbn [toListOpt toList]. lia.
      * reflexivity.
      * rewrite Hlook. tauto.
  - exists (Some (Leaf l)), false. split; [reflexivity|].
    assert (Hlook : lookupLeafNode l (hash k) k = None).
    { unfold lookupLeafNode. destruct (Z.eqb_spec (leaf_hash l) (hash k)); [contradiction|].
      reflexivity. }
    split; [|split; [|split; [|split]]].
    + intros n' [= <-]. exact Hwf.
    + intros k' s. cbn [lookupOpt lookupNode].
      destruct (String.eqb_spec k' k) as [->|]; [|reflexivity].
      rewrite Hlook. reflexivity.
    + cbn [toListOpt toList]. lia.
    + reflexivity.
    + rewrite Hlook. tauto.
Qed.

(** What [removeNode] does to a well-formed subtree. *)
Lemma removeNode_spec (node : HAMTNode V) :
  forall d p,
    wf_node d p node ->
    exists r del,
      removeNode node (hash k) (5 * Z.of_nat d) k = Ok (r, del)
      /\ (forall n', r = Some n' -> wf_node d p n')
      /\ (forall k', lookupOpt r (hash k') (5 * Z.of_nat d) k'
                     = if (k' =? k)%string then Ok None
                       else lookupNode node (hash k') (5 * Z.of_nat d) k')
      /\ (List.length (toListOpt r) + if del then 1 else 0)%nat
         = List.length (toList node)
      /\ (del = false -> r = Some node)
      /\ (del = false <-> lookupNode node (hash k) (5 * Z.of_nat d) k = Ok None).
Proof.
  induction node as [l|bitmap children IH] using HAMTNode_ind'; intros d p Hwf.
  - destruct (removeLeafNode_spec d p l Hwf) as (r & del & Hrun & Hwf' & Hlk & Hlen & Hsame & Hdel).
    exists r, del. cbn [removeNode lookupNode toList]. rewrite Hrun.
    split; [reflexivity|]. split; [exact Hwf'|]. split; [|split; [|split]]; auto.
    rewrite Hdel. split; [congruence | intros [= ->]; reflexivity].
  - inversion Hwf as [|? ? ? ? Hd Hrg Hne Hlen Hch]; subst.
    pose proof (maskHash_range (hash k) (5 * Z.of_nat d)) as Hm.
    rewrite removeNode_Internal.
    rewrite (lookupNode_child _ _ (hash k)) by exact Hlen.
    unfold child_at.
    destruct (Z.testbit bitmap (maskHash (hash k) (5 * Z.of_nat d))) eqn:Hb.
    + destruct (child_at_defined bitmap children _ Hm Hlen Hb) as [c Hc].
      rewrite Hc.
      assert (Hat : child_at bitmap children (maskHash (hash k) (5 * Z.of_nat d)) = Some c)
        by (unfold child_at; rewrite Hb; exact Hc).
      rewrite Forall_forall in IH.
      destruct (IH c (nth_error_In _ _ Hc) (S d) _ (Hch _ c Hm Hat))
        as (rc & delc & Hrun & Hwf' & Hlk & Hlen' & Hsame & Hdel).
      rewrite shift_succ, Hrun. cbn [bind].
      destruct delc; cbn [negb].
      * destruct rc as [c'|].
        -- (* the child shrank *)
           eexists _, true. split; [reflexivity|].
           assert (Hlen2 : List.length
                             (array_set children
                                (rank bitmap (maskHash (hash k) (5 * Z.of_nat d))) c')
                           = bitcount 32 bitmap)
             by (rewrite length_array_set; exact Hlen).
           split; [|split; [|split; [|split]]].
           ++ intros n' [= <-]. constructor; auto.
              ** intros E. apply (f_equal (@List.length _)) in E.
                 rewrite length_array_set in E.
                 destruct children; [congruence|discriminate].
              ** intros m x Hmr Hx.
                 rewrite (child_at_replace bitmap children _ Hm Hlen c' Hb) in Hx by lia.
                 destruct (Z.eqb_spec m (maskHash (hash k) (5 * Z.of_nat d))) as [->|].
                 --- injection Hx as <-. apply Hwf'. reflexivity.
                 --- apply Hch; assumption.
           ++ intros k'. cbn [lookupOpt]. rewrite !lookupNode_child by assumption.
              rewrite (child_at_replace bitmap children _ Hm Hlen c' Hb)
                by apply maskHash_range.
              destruct (Z.eqb_spec (maskHash (hash k') (5 * Z.of_nat d))
                          (maskHash (hash k) (5 * Z.of_nat d))) as [E|NE].
              ** rewrite E, Hat, shift_succ. apply (Hlk k').
              ** destruct (String.eqb_spec k' k) as [->|]; [congruence|reflexivity].
           ++ cbn [toListOpt] in *. rewrite !length_toList_Internal.
              pose proof (sum_replace (fun c => List.length (toList c)) children _ c c' Hc).
              cbv beta in *. lia.
           ++ discriminate.
           ++ split; [discriminate|]. intros E. apply Hdel in E. discriminate.
        -- (* the child is gone *)
           assert (Hbits : forall i, 0 <= i < 32 ->
                     Z.testbit (JS.and bitmap (JS.not (bitpos (hash k) (5 * Z.of_nat d)))) i
                     = Z.testbit bitmap i
                       && negb (i =? maskHash (hash k) (5 * Z.of_nat d))).
           { intros i Hi. rewrite bitpos_spec. apply testbit_and_not_bit; assumption. }
           pose proof (length_child_delete bitmap children _ Hm Hlen _ Hbits Hb) as Hlen2.
           pose proof (child_at_delete bitmap children _ Hm Hlen _ Hbits Hb) as Hdelat.
           pose proof (sum_delete (fun c => List.length (toList c)) children _ c Hc) as Hsum.
           cbn [toListOpt List.length] in Hlen'. cbv beta in Hsum.
           assert (Hgone : forall k', (k' =? k)%string = false ->
                     lookupNode c (hash k') (5 * Z.of_nat (S d)) k' = Ok None).
           { intros k' Hk. specialize (Hlk k'). rewrite Hk in Hlk. symmetry. exact Hlk. }
           pose proof (and_not_bit_zero bitmap (maskHash (hash k) (5 * Z.of_nat d))) as Hz.
           rewrite <- bitpos_spec in Hz. rewrite Hz.
           destruct (Nat.eqb_spec
                       (bitcount 32 (JS.and bitmap
                                       (JS.not (bitpos (hash k) (5 * Z.of_nat d))))) 0)
             as [E0|N0].
           ++ (* the node is emptied *)
              exists None, true. split; [reflexivity|].
              split; [discriminate|]. split; [|split; [|split]].
              ** intros k'. cbn [lookupOpt].
                 destruct (String.eqb_spec k' k) as [->|Hk]; [reflexivity|].
                 rewrite lookupNode_child by assumption.
                 pose proof (maskHash_range (hash k') (5 * Z.of_nat d)) as Hm'.
                 specialize (Hdelat _ Hm').
                 unfold child_at at 1 in Hdelat.
                 rewrite (bitcount_zero_bits 32 _ _ E0) in Hdelat by lia.
                 destruct (Z.eqb_spec (maskHash (hash k') (5 * Z.of_nat d))
                             (maskHash (hash k) (5 * Z.of_nat d))) as [E|NE].
                 --- rewrite E, Hat, shift_succ. symmetry. apply Hgone.
                     apply String.eqb_neq. exact Hk.
                 --- rewrite <- Hdelat. reflexivity.
              ** cbn [toListOpt List.length]. rewrite length_toList_Internal, Hsum.
                 rewrite E0 in Hlen2. apply length_zero_iff_nil in Hlen2.
                 rewrite Hlen2. cbn. lia.
              ** discriminate.
              ** split; [discriminate|]. intros E. apply Hdel in E. discriminate.
           ++ eexists _, true. split; [reflexivity|].
              split; [|split; [|split; [|split]]].
              ** intros n' [= <-]. constructor; auto.
                 --- intros E. apply length_zero_iff_nil in E.
                     apply N0. rewrite <- Hlen2. exact E.
                 --- intros m x Hmr Hx. rewrite Hdelat in Hx by lia.
                     destruct (Z.eqb_spec m (maskHash (hash k) (5 * Z.of_nat d)));
                       [discriminate|].
                     apply Hch; assumption.
              ** intros k'. cbn [lookupOpt]. rewrite !lookupNode_child by assumption.
                 rewrite Hdelat by apply maskHash_range.
                 destruct (Z.eqb_spec (maskHash (hash k') (5 * Z.of_nat d))
                             (maskHash (hash k) (5 * Z.of_nat d))) as [E|NE].
                 --- rewrite E, Hat, shift_succ.
                     destruct (k' =? k)%string eqn:Hk; [reflexivity|].
                     symmetry. apply Hgone. exact Hk.
                 --- destruct (String.eqb_spec k' k) as [->|]; [congruence|reflexivity].
              ** cbn [toListOpt]. rewrite !length_toList_Internal, Hsum. lia.
              ** discriminate.
              ** split; [discriminate|]. intros E. apply Hdel in E. discriminate.
      * (* nothing was deleted below *)
        exists (Some (Internal bitmap children)), false. split; [reflexivity|].
        split; [|split; [|split; [|split]]].
        -- intros n' [= <-]. exact Hwf.
        -- intros k'. cbn [lookupOpt].
           destruct (String.eqb_spec k' k) as [->|]; [|reflexivity].
           rewrite lookupNode_child, Hat, shift_succ by assumption.
           apply Hdel. reflexivity.
        -- cbn [toListOpt]. lia.
        -- reflexivity.
        -- split; [intros _; apply Hdel; reflexivity | reflexivity].
    + exists (Some (Internal bitmap children)), false. split; [reflexivity|].
      assert (Hnone : child_at bitmap children (maskHash (hash k) (5 * Z.of_nat d)) = None)
        by (unfold child_at; rewrite Hb; reflexivity).
      split; [|split; [|split; [|split]]].
      * intros n' [= <-]. exact Hwf.
      * intros k'. cbn [lookupOpt].
        destruct (String.eqb_spec k' k) as [->|]; [|reflexivity].
        rewrite lookupNode_child, Hnone by assumption. reflexivity.
      * cbn [toListOpt]. lia.
      * reflexivity.
      * tauto.
Qed.

End RemoveSpec.

(** [lookupNode] never throws on a well-formed subtree. *)
Lemma lookupNode_total {V : Type} (node : HAMTNode V) :
  forall d p h key,
    wf_node d p node -> exists o, lookupNode node h (5 * Z.of_nat d) key = Ok o.
Proof.
  induction node as [l|bitmap children IH] using HAMTNode_ind'; intros d p h key Hwf.
  - cbn [lookupNode]. eauto.
  - inversion Hwf as [|? ? ? ? Hd Hrg Hne Hlen Hch]; subst.
    rewrite lookupNode_child by exact Hlen.
    destruct (child_at bitmap children (maskHash h (5 * Z.of_nat d))) as [c|] eqn:Hat;
      [|eauto].
    rewrite Forall_forall in IH. rewrite shift_succ.
    eapply (IH c (child_at_In _ _ _ _ Hat) (S d)).
    apply (Hch _ c (maskHash_range _ _) Hat).
Qed.

(** * Fuel

    A result reached with some fuel is reached with any larger fuel. *)

Section Fuel.
Context {V : Type}.

Lemma mergeLeaves_mono (fuel fuel' : nat) s (l : LeafNode V) h k v n :
  mergeLeaves fuel s l h k v = Ok n -> (fuel <= fuel')%nat ->
  mergeLeaves fuel' s l h k v = Ok n.
Proof.
  revert fuel' s n. induction fuel as [|fuel IH]; intros fuel' s n H Hle; [discriminate|].
  destruct fuel' as [|fuel']; [lia|].
  cbn [mergeLeaves] in *.
  destruct (bitpos (leaf_hash l) s =? bitpos h s); [|exact H].
  destruct (mergeLeaves fuel (s + 5) l h k v) as [inner| |] eqn:E; try discriminate.
  rewrite (IH fuel' _ _ E) by lia. exact H.
Qed.

Lemma updateNode_mono (fuel fuel' : nat) (node : HAMTNode V) k v :
  (fuel <= fuel')%nat ->
  forall h s r,
    updateNode fuel node h s k v = Ok r -> updateNode fuel' node h s k v = Ok r.
Proof.
  intros Hle.
  induction node as [l|bitmap children IH] using HAMTNode_ind'; intros h s r H.
  - cbn [updateNode] in *. unfold updateLeafNode in *.
    destruct (leaf_hash l =? h); [exact H|].
    destruct (mergeLeaves fuel s l h k v) as [n| |] eqn:E; try discriminate.
    rewrite (mergeLeaves_mono _ _ _ _ _ _ _ _ E Hle). exact H.
  - rewrite updateNode_Internal in *.
    destruct (Z.testbit bitmap (maskHash h s)); [|exact H].
    destruct (nth_error children (rank bitmap (maskHash h s))) as [c|] eqn:Hc;
      [|discriminate].
    rewrite Forall_forall in IH.
    destruct (updateNode fuel c h (s + 5) k v) as [rc| |] eqn:E; try discriminate.
    rewrite (IH c (nth_error_In _ _ Hc) _ _ _ E). exact H.
Qed.

Lemma insert_mono (fuel fuel' : nat) (m : HAMT V) k v m' :
  insert fuel m k v = Ok m' -> (fuel <= fuel')%nat -> insert fuel' m k v = Ok m'.
Proof.
  unfold insert. intros H Hle.
  destruct (root m) as [node|]; [|exact H].
  destruct (updateNode fuel node (hash k) 0 k v) as [r| |] eqn:E; try discriminate.
  rewrite (updateNode_mono _ _ _ _ _ Hle _ _ _ E). exact H.
Qed.

(** So the result of [insert] does not depend on the fuel. *)
Lemma insert_fuel_irrelevant (fuel fuel' : nat) (m : HAMT V) k v m1 m2 :
  insert fuel m k v = Ok m1 -> insert fuel' m k v = Ok m2 -> m1 = m2.
Proof.
  intros H1 H2.
  apply (insert_mono _ (Nat.max fuel fuel')) in H1; [|lia].
  apply (insert_mono _ (Nat.max fuel fuel')) in H2; [|lia].
  congruence.
Qed.

End Fuel.

(** * The map operations on well-formed maps *)

Section MapSpec.
Context {V : Type}.
Implicit Types (m : HAMT V) (k : string) (v : V).

Lemma wf_size_nonneg m : wf m -> 0 <= size m.
Proof.
  unfold wf. destruct (root m); [intros [_ ->] | intros ->]; lia.
Qed.

Lemma lookup_total m k : wf m -> exists o, lookup m k = Ok o.
Proof.
  unfold wf, lookup. destruct (root m) as [node|]; [|eauto].
  intros [Hwf _]. apply (lookupNode_total node 0 0 (hash k) k Hwf).
Qed.

Lemma insert_spec (fuel : nat) m k v :
  wf m -> (7 <= fuel)%nat ->
  exists m',
    insert fuel m k v = Ok m'
    /\ wf m'
    /\ (forall k', lookup m' k' = if (k' =? k)%string then Ok (Some v) else lookup m k')
    /\ size m' = size m + (match lookup m k with Ok None => 1 | _ => 0 end).
Proof.
  intros Hwf Hfuel. unfold wf, insert, lookup in *.
  destruct (root m) as [node|].
  - destruct Hwf as [Hwf Hsize].
    destruct (updateNode_spec k v fuel node 0 0 Hwf (pre_0 _) ltac:(lia))
      as (n' & ins & Hrun & Hwf' & Hlk & Hlen & Hins).
    change (5 * Z.of_nat 0) with 0 in *.
    rewrite Hrun. cbn [bind]. eexists. split; [reflexivity|]. cbn [root size].
    split; [|split].
    + split; [exact Hwf'|]. rewrite Hlen, Hsize. destruct ins; lia.
    + exact Hlk.
    + destruct ins.
      * rewrite (proj1 Hins eq_refl). reflexivity.
      * destruct (lookupNode node (hash k) 0 k) as [[x|]| |] eqn:E; try reflexivity.
        destruct Hins as [_ Hins]. specialize (Hins eq_refl). discriminate.
  - cbn [bind]. eexists. split; [reflexivity|]. cbn [root size].
    split; [|split].
    + split.
      * rewrite <- (pre_0 (hash k)). apply (wf_new_leaf 0 k v). lia.
      * cbn. lia.
    + intros k'. apply lookup_new_leaf.
    + reflexivity.
Qed.

Lemma remove_spec m k :
  wf m ->
  exists m',
    remove m k = Ok m'
    /\ wf m'
    /\ (forall k', lookup m' k' = if (k' =? k)%string then Ok None else lookup m k')
    /\ (lookup m k = Ok None -> m' = m)
    /\ (lookup m k <> Ok None -> size m' = size m - 1).
Proof.
  intros Hwf. pose proof (wf_size_nonneg m Hwf) as Hnn.
  unfold wf, remove, lookup in *.
  destruct m as [[node|] sz]; cbn [root size] in *.
  - destruct Hwf as [Hwf Hsize].
    destruct (removeNode_spec k node 0 0 Hwf)
      as (r & del & Hrun & Hwf' & Hlk & Hlen & Hsame & Hdel).
    change (5 * Z.of_nat 0) with 0 in *.
    rewrite Hrun. cbn [bind]. eexists. split; [reflexivity|]. cbn [root size].
    split; [|split; [|split]].
    + destruct r as [n'|]; cbn [toListOpt] in Hlen.
      * split; [apply Hwf'; reflexivity|]. destruct del; lia.
      * cbn [List.length] in Hlen. destruct del; lia.
    + intros k'. specialize (Hlk k'). destruct r; exact Hlk.
    + intros Hnone. apply Hdel in Hnone. subst del.
      rewrite (Hsame eq_refl). f_equal. lia.
    + intros Hsome. destruct del; [lia|].
      exfalso. apply Hsome, Hdel. reflexivity.
  - cbn [bind]. eexists. split; [reflexivity|]. cbn [root size].
    split; [|split; [|split]].
    + lia.
    + intros k'. destruct (k' =? k)%string; reflexivity.
    + intros _. f_equal. lia.
    + intros H. exfalso. apply H. reflexivity.
Qed.

Theorem reachable_wf m : reachable m -> wf m.
Proof.
  induction 1 as [|fuel m k v m' _ IH Hins|m k m' _ IH Hrem].
  - reflexivity.
  - destruct (insert_spec (fuel + 7) m k v IH ltac:(lia)) as (m'' & Hrun & Hwf & _).
    rewrite (insert_mono fuel (fuel + 7) m k v m' Hins ltac:(lia)) in Hrun.
    injection Hrun as <-. exact Hwf.
  - destruct (remove_spec m k IH) as (m'' & Hrun & Hwf & _).
    rewrite Hrem in Hrun. injection Hrun as <-. exact Hwf.
Qed.

End MapSpec.

(** * Structure of well-formed tries *)

Lemma digits_unique (X p q a b : Z) :
  0 <= p < X -> 0 <= q < X -> p + a * X = q + b * X -> p = q /\ a = b.
Proof.
  intros Hp Hq E.
  assert (a = b) by nia. subst. lia.
Qed.

Lemma NoDup_concat_nth {A : Type} (ls : list (list A)) :
  (forall l, In l ls -> NoDup l) ->
  (forall i j li lj x, i <> j -> nth_error ls i = Some li -> nth_error ls j = Some lj ->
                       In x li -> In x lj -> False) ->
  NoDup (List.concat ls).
Proof.
  induction ls as [|l ls IH]; intros Hnd Hdisj; cbn [List.concat]; [constructor|].
  apply NoDup_app.
  - apply Hnd. left. reflexivity.
  - apply IH.
    + intros l' Hl'. apply Hnd. right. exact Hl'.
    + intros i j li lj x Hij Hi Hj. apply (Hdisj (S i) (S j)); auto.
  - intros x Hx Hin. apply in_concat in Hin as (l' & Hl' & Hx').
    apply In_nth_error in Hl' as [j Hj].
    apply (Hdisj 0%nat (S j) l l' x); auto.
Qed.

Section Structure.
Context {V : Type}.
Implicit Types (node c : HAMTNode V).

(** Every key below a node hashes to the branches that lead to it. *)
Lemma wf_keys node :
  forall d p, wf_node d p node ->
  forall e, In e (toList node) -> pre d (hash (fst e)) = p.
Proof.
  induction node as [l|bitmap children IH] using HAMTNode_ind'; intros d p Hwf e He.
  - inversion Hwf as [? ? ? Hd Hne Hnd Hh Hp|]; subst. cbn [toList] in He.
    rewrite (Hh e He). reflexivity.
  - inversion Hwf as [|? ? ? ? Hd Hrg Hne Hlen Hch]; subst. cbn [toList] in He.
    apply in_concat in He as (es & Hes & He).
    apply in_map_iff in Hes as (c & <- & Hc).
    destruct (In_nth_error _ _ Hc) as [j Hj].
    destruct (child_at_cover bitmap children Hlen j c Hj) as (m & Hm & _ & Hat).
    rewrite Forall_forall in IH.
    pose proof (IH c Hc (S d) _ (Hch m c Hm Hat) e He) as Hpre.
    rewrite pre_succ in Hpre by (auto using hash_range).
    assert (0 < 2 ^ (5 * Z.of_nat d)) by (apply Z.pow_pos_nonneg; lia).
    apply (digits_unique (2 ^ (5 * Z.of_nat d)) _ _ _ _) in Hpre as [Hpre _]; auto.
    apply Z.mod_pos_bound. assumption.
Qed.

Lemma wf_child_mask d p bitmap (children : list (HAMTNode V)) m c e :
  wf_node d p (Internal bitmap children) -> 0 <= m < 32 ->
  child_at bitmap children m = Some c -> In e (toList c) ->
  maskHash (hash (fst e)) (5 * Z.of_nat d) = m.
Proof.
  intros Hwf Hm Hat He.
  inversion Hwf as [|? ? ? ? Hd Hrg Hne Hlen Hch]; subst.
  pose proof (wf_keys c (S d) _ (Hch m c Hm Hat) e He) as Hpre.
  rewrite pre_succ in Hpre by (auto using hash_range).
  assert (0 < 2 ^ (5 * Z.of_nat d)) by (apply Z.pow_pos_nonneg; lia).
  apply (digits_unique (2 ^ (5 * Z.of_nat d)) _ _ _ _) in Hpre as [_ Hpre]; auto.
  apply Z.mod_pos_bound. assumption.
Qed.

(** No key is stored twice. *)
Lemma wf_NoDup node :
  forall d p, wf_node d p node -> NoDup (map fst (toList node)).
Proof.
  induction node as [l|bitmap children IH] using HAMTNode_ind'; intros d p Hwf.
  - inversion Hwf; subst. assumption.
  - inversion Hwf as [|? ? ? ? Hd Hrg Hne Hlen Hch]; subst. cbn [toList].
    rewrite concat_map, map_map.
    rewrite Forall_forall in IH.
    apply NoDup_concat_nth.
    + intros ks Hks. apply in_map_iff in Hks as (c & <- & Hc).
      destruct (In_nth_error _ _ Hc) as [j Hj].
      destruct (child_at_cover bitmap children Hlen j c Hj) as (m & Hm & _ & Hat).
      apply (IH c Hc (S d) _ (Hch m c Hm Hat)).
    + intros i j ki kj x Hij Hi Hj Hxi Hxj.
      rewrite nth_error_map in Hi, Hj.
      destruct (nth_error children i) as [ci|] eqn:Eci; [|discriminate].
      destruct (nth_error children j) as [cj|] eqn:Ecj; [|discriminate].
      injection Hi as <-. injection Hj as <-.
      destruct (child_at_cover bitmap children Hlen i ci Eci) as (mi & Hmi & Hri & Hati).
      destruct (child_at_cover bitmap children Hlen j cj Ecj) as (mj & Hmj & Hrj & Hatj).
      apply in_map_iff in Hxi as (ei & Hfi & Hei).
      apply in_map_iff in Hxj as (ej & Hfj & Hej).
      pose proof (wf_child_mask _ _ _ _ _ _ _ Hwf Hmi Hati Hei) as M1.
      pose proof (wf_child_mask _ _ _ _ _ _ _ Hwf Hmj Hatj Hej) as M2.
      rewrite Hfi in M1. rewrite Hfj in M2. congruence.
Qed.

(** Every node reachable from a well-formed node is well-formed. *)
Lemma wf_node_in (n r : HAMTNode V) :
  node_in n r -> forall d p, wf_node d p r -> exists d' p', wf_node d' p' n.
Proof.
  induction 1 as [|bitmap children c Hc _ IH]; intros d p Hwf; [eauto|].
  inversion Hwf as [|? ? ? ? Hd Hrg Hne Hlen Hch]; subst.
  destruct (In_nth_error _ _ Hc) as [j Hj].
  destruct (child_at_cover bitmap children Hlen j c Hj) as (m & Hm & _ & Hat).
  apply (IH (S d) _ (Hch m c Hm Hat)).
Qed.


End Structure.

Section Membership.
Context {V : Type}.

Lemma keys_functional (l : list (string * V)) k v v' :
  NoDup (map fst l) -> In (k, v) l -> In (k, v') l -> v = v'.
Proof.
  induction l as [|e l IH]; cbn [map In]; intros Hnd H1 H2; [contradiction|].
  inversion Hnd as [|? ? Hnotin Hnd']; subst.
  destruct H1 as [->|H1], H2 as [E|H2].
  - congruence.
  - exfalso. apply Hnotin. apply (in_map fst) in H2. exact H2.
  - subst e. exfalso. apply Hnotin. apply (in_map fst) in H1. exact H1.
  - auto.
Qed.

Lemma lookupLeafNode_In (l : LeafNode V) d p k v :
  wf_node d p (Leaf l) ->
  lookupLeafNode l (hash k) k = Some v <-> In (k, v) (entries l).
Proof.
  intros Hwf. inversion Hwf as [? ? ? Hd Hne Hnd Hh Hp|]; subst.
  unfold lookupLeafNode. split.
  - destruct (leaf_hash l =? hash k); [|discriminate].
    destruct (find (key_is k) (entries l)) as [e|] eqn:Ef; [|discriminate].
    intros [= <-]. apply find_some in Ef as [Hin Hk].
    apply key_is_true in Hk. destruct e as [k' v']. cbn in *. subst k'. exact Hin.
  - intros Hin. rewrite <- (Hh _ Hin). cbn [fst]. rewrite Z.eqb_refl.
    destruct (find (key_is k) (entries l)) as [e|] eqn:Ef.
    + apply find_some in Ef as [Hin' Hk]. apply key_is_true in Hk.
      destruct e as [k' v']. cbn in *. subst k'.
      f_equal. apply (keys_functional (entries l) k); assumption.
    + exfalso. apply find_key_None in Ef. apply Ef.
      apply (in_map fst) in Hin. exact Hin.
Qed.

(** A lookup finds exactly the entries stored below the node. *)
Lemma lookupNode_In (node : HAMTNode V) k v :
  forall d p,
    wf_node d p node ->
    lookupNode node (hash k) (5 * Z.of_nat d) k = Ok (Some v) <-> In (k, v) (toList node).
Proof.
  induction node as [l|bitmap children IH] using HAMTNode_ind'; intros d p Hwf.
  - cbn [lookupNode toList]. rewrite <- (lookupLeafNode_In l d p k v Hwf).
    split; [intros [= ->]; reflexivity | intros ->; reflexivity].
  - inversion Hwf as [|? ? ? ? Hd Hrg Hne Hlen Hch]; subst.
    rewrite lookupNode_child by exact Hlen. cbn [toList].
    rewrite Forall_forall in IH.
    pose proof (maskHash_range (hash k) (5 * Z.of_nat d)) as Hm.
    split.
    + destruct (child_at bitmap children _) as [c|] eqn:Hat; [|discriminate].
      rewrite shift_succ. intros Hlk.
      pose proof (child_at_In _ _ _ _ Hat) as Hc.
      apply (IH c Hc (S d) _ (Hch _ c Hm Hat)) in Hlk.
      apply in_concat. exists (toList c). split; [apply in_map; exact Hc | exact Hlk].
    + intros Hin. apply in_concat in Hin as (es & Hes & Hin).
      apply in_map_iff in Hes as (c & <- & Hc).
      destruct (In_nth_error _ _ Hc) as [j Hj].
      destruct (child_at_cover bitmap children Hlen j c Hj) as (m & Hmr & _ & Hat).
      pose proof (wf_child_mask _ _ _ _ _ _ _ Hwf Hmr Hat Hin) as Hmask.
      cbn [fst] in Hmask. rewrite Hmask, Hat, shift_succ.
      apply (IH c Hc (S d) _ (Hch m c Hmr Hat)). exact Hin.
Qed.

Lemma lookup_bindings (hamt : HAMT V) k v :
  wf hamt -> lookup hamt k = Ok (Some v) <-> In (k, v) (bindings hamt).
Proof.
  unfold wf, lookup, bindings. destruct (root hamt) as [node|].
  - intros [Hwf _]. apply (lookupNode_In node k v 0 0 Hwf).
  - intros _. split; [discriminate | contradiction].
Qed.

End Membership.

(** * Termination of [mergeLeaves]

    The shift is read modulo 32 and advances by 5, so 32 successive
    levels look at a slice starting at every bit position: two different
    32-bit hashes are told apart at one of them. *)

Lemma differing_bit (h1 h2 : Z) :
  0 <= h1 < 2^32 -> 0 <= h2 < 2^32 -> h1 <> h2 ->
  exists b, 0 <= b < 32 /\ Z.testbit h1 b <> Z.testbit h2 b.
Proof.
  intros H1 H2 Hne.
  destruct (existsb (fun b => xorb (Z.testbit h1 b) (Z.testbit h2 b))
              (map Z.of_nat (seq 0 32))) eqn:E.
  - apply existsb_exists in E as (b & Hb & Hx).
    apply in_map_iff in Hb as (n & <- & Hn). apply in_seq in Hn.
    exists (Z.of_nat n). split; [lia|].
    destruct (Z.testbit h1 (Z.of_nat n)), (Z.testbit h2 (Z.of_nat n)); discriminate.
  - exfalso. apply Hne. apply Z.bits_inj'. intros n Hn.
    destruct (Z.ltb_spec n 32).
    + destruct (xorb (Z.testbit h1 n) (Z.testbit h2 n)) eqn:Hx.
      * assert (Hex : existsb (fun b => xorb (Z.testbit h1 b) (Z.testbit h2 b))
                        (map Z.of_nat (seq 0 32)) = true).
        { apply existsb_exists. exists n. split; [|exact Hx].
          apply in_map_iff. exists (Z.to_nat n). split; [lia|].
          apply in_seq. lia. }
        congruence.
      * destruct (Z.testbit h1 n), (Z.testbit h2 n); try reflexivity; discriminate.
    + rewrite <- (Z.mod_small h1 (2^32)), <- (Z.mod_small h2 (2^32)) by lia.
      rewrite !Z.mod_pow2_bits_high by lia. reflexivity.
Qed.

Lemma maskHash_low_bit (h s : Z) :
  0 <= h < 2^32 -> Z.testbit (maskHash h s) 0 = Z.testbit h (s mod 32).
Proof.
  intros Hh. rewrite maskHash_spec, (Z.mod_small h) by lia.
  pose proof (Z.mod_pos_bound s 32 ltac:(lia)).
  change 32 with (2^5) at 2.
  rewrite Z.mod_pow2_bits_low by lia.
  rewrite Z.div_pow2_bits by lia. reflexivity.
Qed.

Lemma masks_differ (h1 h2 s : Z) :
  0 <= h1 < 2^32 -> 0 <= h2 < 2^32 -> h1 <> h2 ->
  exists j, (j < 32)%nat
            /\ maskHash h1 (s + 5 * Z.of_nat j) <> maskHash h2 (s + 5 * Z.of_nat j).
Proof.
  intros H1 H2 Hne.
  destruct (differing_bit h1 h2 H1 H2 Hne) as (b & Hb & Hbit).
  pose proof (Z.mod_pos_bound (13 * (b - s)) 32 ltac:(lia)) as Hj.
  exists (Z.to_nat ((13 * (b - s)) mod 32)). split; [lia|].
  rewrite Z2Nat.id by lia.
  assert (Es : (s + 5 * ((13 * (b - s)) mod 32)) mod 32 = b).
  { rewrite <- Zplus_mod_idemp_r, Z.mul_mod_idemp_r, Zplus_mod_idemp_r by lia.
    replace (s + 5 * (13 * (b - s))) with (b + (2 * (b - s)) * 32) by lia.
    rewrite Z.mod_add by lia. apply Z.mod_small. lia. }
  intros E. apply Hbit.
  rewrite <- Es, <- !maskHash_low_bit by assumption.
  rewrite E. reflexivity.
Qed.

Lemma mergeLeaves_S {V : Type} (fuel : nat) s (l : LeafNode V) h k v :
  mergeLeaves (S fuel) s l h k v =
  if bitpos (leaf_hash l) s =? bitpos h s then
    newNode <- mergeLeaves fuel (s + 5) l h k v ;;
    Ok (createInternal (bitpos (leaf_hash l) s) [newNode])
  else
    Ok (createInternal (JS.or (bitpos (leaf_hash l) s) (bitpos h s))
          (if bitpos (leaf_hash l) s <? bitpos h s
           then [Leaf l; Leaf (createLeaf h k v)]
           else [Leaf (createLeaf h k v); Leaf l])).
Proof. reflexivity. Qed.

Lemma mergeLeaves_stops {V : Type} (l : LeafNode V) h k v (j : nat) :
  forall s,
    maskHash (leaf_hash l) (s + 5 * Z.of_nat j) <> maskHash h (s + 5 * Z.of_nat j) ->
    exists n, mergeLeaves (S j) s l h k v = Ok n.
Proof.
  induction j as [|j IH]; intros s Hne; rewrite mergeLeaves_S.
  - replace (s + 5 * Z.of_nat 0) with s in Hne by lia.
    destruct (Z.eqb_spec (bitpos (leaf_hash l) s) (bitpos h s)) as [E|]; [|eauto].
    apply bitpos_inj in E. contradiction.
  - destruct (bitpos (leaf_hash l) s =? bitpos h s); [|eauto].
    destruct (IH (s + 5)) as [n Hn].
    + replace (s + 5 + 5 * Z.of_nat j) with (s + 5 * Z.of_nat (S j)) by lia. exact Hne.
    + rewrite Hn. cbn [bind]. eauto.
Qed.

Lemma mergeLeaves_terminates {V : Type} (l : LeafNode V) h k v s :
  0 <= leaf_hash l < 2^32 -> 0 <= h < 2^32 -> leaf_hash l <> h ->
  exists n, forall fuel, (32 <= fuel)%nat -> mergeLeaves fuel s l h k v = Ok n.
Proof.
  intros H1 H2 Hne.
  destruct (masks_differ _ _ s H1 H2 Hne) as (j & Hj & Hm).
  destruct (mergeLeaves_stops l h k v j s Hm) as [n Hn].
  exists n. intros fuel Hfuel. apply (mergeLeaves_mono (S j)); [exact Hn | lia].
Qed.

(** With equal hashes the recursion never ends. *)
Lemma mergeLeaves_equal_hashes {V : Type} (l : LeafNode V) k v (fuel : nat) :
  forall s, mergeLeaves fuel s l (leaf_hash l) k v = OutOfFuel.
Proof.
  induction fuel as [|fuel IH]; intros s; cbn [mergeLeaves]; [reflexivity|].
  rewrite Z.eqb_refl, IH. reflexivity.
Qed.

(** * The map laws *)

Section Laws.
Context {V : Type}.
Implicit Types (hamt : HAMT V) (key : string) (value : V).

Lemma insert_all_size (fuel : nat) (l : list (string * V)) :
  (7 <= fuel)%nat -> NoDup (map fst l) ->
  forall hamt,
    wf hamt -> (forall e, In e l -> lookup hamt (fst e) = Ok None) ->
    exists hamt',
      insert_all fuel l hamt = Ok hamt'
      /\ size hamt' = size hamt + Z.of_nat (List.length l).
Proof.
  intros Hfuel. induction l as [|[k v] l IH]; intros Hnd hamt Hwf Hfresh.
  - exists hamt. cbn. split; [reflexivity | lia].
  - cbn [map fst] in Hnd. inversion Hnd as [|? ? Hnotin Hnd']; subst.
    destruct (insert_spec fuel hamt k v Hwf Hfuel) as (m1 & Hrun & Hwf1 & Hlk & Hsize).
    pose proof (Hfresh (k, v) (or_introl eq_refl)) as Hk. cbn [fst] in Hk.
    rewrite Hk in Hsize.
    destruct (IH Hnd' m1 Hwf1) as (m' & Hrun' & Hsize').
    + intros e He. rewrite Hlk.
      destruct (String.eqb_spec (fst e) k) as [E|_].
      * exfalso. apply Hnotin. rewrite <- E. apply in_map. exact He.
      * apply Hfresh. right. exact He.
    + exists m'. cbn [insert_all]. rewrite Hrun. cbn [bind].
      split; [exact Hrun'|]. rewrite Hsize', Hsize. cbn [List.length]. lia.
Qed.


(** C1. Insert-then-lookup: on every map built from the empty map by
    inserts and removes, [insert] returns (with fuel for the seven levels
    of the trie) and a lookup of the inserted key in the result returns
    the inserted value. *)
Theorem insert_then_lookup hamt key value (fuel : nat) :
  reachable hamt -> (7 <= fuel)%nat ->
  exists hamt',
    insert fuel hamt key value = Ok hamt'
    /\ lookup hamt' key = Ok (Some value).
Proof.
  intros Hr Hfuel.
  destruct (insert_spec fuel hamt key value (reachable_wf _ Hr) Hfuel)
    as (m' & Hrun & _ & Hlk & _).
  exists m'. split; [exact Hrun|].
  rewrite Hlk, String.eqb_refl. reflexivity.
Qed.

(** C2. Remove-then-lookup: removing a key that was just inserted into a
    map built from the empty map makes its lookup return no value. *)
Theorem remove_then_lookup hamt key value (fuel : nat) :
  reachable hamt -> (7 <= fuel)%nat ->
  exists hamt1 hamt2,
    insert fuel hamt key value = Ok hamt1
    /\ remove hamt1 key = Ok hamt2
    /\ lookup hamt2 key = Ok None.
Proof.
  intros Hr Hfuel.
  destruct (insert_spec fuel hamt key value (reachable_wf _ Hr) Hfuel)
    as (m1 & Hrun1 & Hwf1 & _).
  destruct (remove_spec m1 key Hwf1) as (m2 & Hrun2 & _ & Hlk & _).
  exists m1, m2. split; [exact Hrun1|]. split; [exact Hrun2|].
  rewrite Hlk, String.eqb_refl. reflexivity.
Qed.

(** C3. Size correctness: in every map built from the empty map by
    inserts and removes, [size] is the number of entries held by the
    leaves reachable from the root (none when the root is absent); no
    key occurs twice among them and they are the entries that [lookup]
    finds, so [size] counts the distinct keys stored.  Inserting entries
    with pairwise distinct keys into the empty map, in whatever order the
    list gives them, yields a map whose [size] is their number. *)
Theorem size_counts_keys hamt :
  reachable hamt ->
  size hamt = Z.of_nat (List.length (bindings hamt))
  /\ NoDup (map fst (bindings hamt))
  /\ (forall key value,
         In (key, value) (bindings hamt) <-> lookup hamt key = Ok (Some value))
  /\ (root hamt = None -> size hamt = 0)
  /\ forall (fuel : nat) (l : list (string * V)),
       (7 <= fuel)%nat -> NoDup (map fst l) ->
       exists hamt',
         insert_all fuel l empty = Ok hamt'
         /\ size hamt' = Z.of_nat (List.length l).
Proof.
  intros Hr. pose proof (reachable_wf _ Hr) as Hwf.
  pose proof (fun k v => lookup_bindings hamt k v Hwf) as Hmem.
  unfold wf, bindings in *.
  split; [|split; [|split; [|split]]].
  - destruct (root hamt); [tauto | rewrite Hwf; reflexivity].
  - destruct (root hamt) as [node|]; [|constructor].
    destruct Hwf as [Hwf _]. apply (wf_NoDup node 0 0 Hwf).
  - intros key value. symmetry. apply Hmem.
  - intros E. rewrite E in Hwf. exact Hwf.
  - intros fuel l Hfuel Hnd.
    destruct (insert_all_size fuel l Hfuel Hnd empty) as (m' & Hrun & Hsize).
    + reflexivity.
    + intros e _. reflexivity.
    + exists m'. split; [exact Hrun|]. rewrite Hsize. cbn [size empty]. lia.
Qed.

(** C4. Frame: on a map built from the empty map, inserting or removing a
    key changes the lookup result of no other key. *)
Theorem other_keys_unchanged hamt key key' value (fuel : nat) :
  reachable hamt -> key' <> key -> (7 <= fuel)%nat ->
  (exists hamt1,
      insert fuel hamt key value = Ok hamt1 /\ lookup hamt1 key' = lookup hamt key')
  /\ (exists hamt2,
         remove hamt key = Ok hamt2 /\ lookup hamt2 key' = lookup hamt key').
Proof.
  intros Hr Hne Hfuel. pose proof (reachable_wf _ Hr) as Hwf.
  apply String.eqb_neq in Hne.
  destruct (insert_spec fuel hamt key value Hwf Hfuel) as (m1 & Hrun1 & _ & Hlk1 & _).
  destruct (remove_spec hamt key Hwf) as (m2 & Hrun2 & _ & Hlk2 & _).
  split.
  - exists m1. split; [exact Hrun1|]. rewrite Hlk1, Hne. reflexivity.
  - exists m2. split; [exact Hrun2|]. rewrite Hlk2, Hne. reflexivity.
Qed.

(** C5. Overwrite: inserting a key twice in a row leaves the second value
    under the key, and the second insert does not change [size]. *)
Theorem overwrite hamt key (v1 v2 : V) (fuel : nat) :
  reachable hamt -> (7 <= fuel)%nat ->
  exists hamt1 hamt2,
    insert fuel hamt key v1 = Ok hamt1
    /\ insert fuel hamt1 key v2 = Ok hamt2
    /\ lookup hamt2 key = Ok (Some v2)
    /\ size hamt2 = size hamt1.
Proof.
  intros Hr Hfuel.
  destruct (insert_spec fuel hamt key v1 (reachable_wf _ Hr) Hfuel)
    as (m1 & Hrun1 & Hwf1 & Hlk1 & _).
  destruct (insert_spec fuel m1 key v2 Hwf1 Hfuel) as (m2 & Hrun2 & _ & Hlk2 & Hsize).
  exists m1, m2. split; [exact Hrun1|]. split; [exact Hrun2|]. split.
  - rewrite Hlk2, String.eqb_refl. reflexivity.
  - rewrite Hsize, Hlk1, String.eqb_refl. lia.
Qed.

(** C6. Remove absent is a no-op: removing a key whose lookup returns no
    value yields a map of the same size with the same lookup result for
    every key; [remove] and [lookup] on the empty map return, and
    [remove] returns the map with absent root and size 0. *)
Theorem remove_absent hamt key :
  reachable hamt -> lookup hamt key = Ok None ->
  (exists hamt',
      remove hamt key = Ok hamt'
      /\ size hamt' = size hamt
      /\ forall key', lookup hamt' key' = lookup hamt key')
  /\ remove (@empty V) key = Ok {| root := None; size := 0 |}
  /\ lookup (@empty V) key = Ok None.
Proof.
  intros Hr Hnone.
  destruct (remove_spec hamt key (reachable_wf _ Hr)) as (m' & Hrun & _ & _ & Hsame & _).
  rewrite (Hsame Hnone) in Hrun.
  split; [|split; reflexivity].
  exists hamt. auto.
Qed.

(** C7. Collisions: two distinct keys with the same 32-bit hash,
    inserted one after the other into a map built from the empty map, are
    both found with their own values; removing either of them makes its
    lookup return no value and leaves the other one in place. *)
Theorem collision_handling hamt (k1 k2 : string) (v1 v2 : V) (fuel : nat) :
  reachable hamt -> k1 <> k2 -> hash k1 = hash k2 -> (7 <= fuel)%nat ->
  exists hamt1 hamt2,
    insert fuel hamt k1 v1 = Ok hamt1
    /\ insert fuel hamt1 k2 v2 = Ok hamt2
    /\ lookup hamt2 k1 = Ok (Some v1)
    /\ lookup hamt2 k2 = Ok (Some v2)
    /\ (exists hamt3,
           remove hamt2 k1 = Ok hamt3
           /\ lookup hamt3 k1 = Ok None /\ lookup hamt3 k2 = Ok (Some v2))
    /\ (exists hamt4,
           remove hamt2 k2 = Ok hamt4
           /\ lookup hamt4 k2 = Ok None /\ lookup hamt4 k1 = Ok (Some v1)).
Proof.
  intros Hr Hne _ Hfuel.
  assert (N12 : (k1 =? k2)%string = false) by (apply String.eqb_neq; exact Hne).
  assert (N21 : (k2 =? k1)%string = false) by (apply String.eqb_neq; congruence).
  destruct (insert_spec fuel hamt k1 v1 (reachable_wf _ Hr) Hfuel)
    as (m1 & Hrun1 & Hwf1 & Hlk1 & _).
  destruct (insert_spec fuel m1 k2 v2 Hwf1 Hfuel) as (m2 & Hrun2 & Hwf2 & Hlk2 & _).
  destruct (remove_spec m2 k1 Hwf2) as (m3 & Hrun3 & _ & Hlk3 & _).
  destruct (remove_spec m2 k2 Hwf2) as (m4 & Hrun4 & _ & Hlk4 & _).
  assert (L1 : lookup m2 k1 = Ok (Some v1))
    by (rewrite Hlk2, N12, Hlk1, String.eqb_refl; reflexivity).
  assert (L2 : lookup m2 k2 = Ok (Some v2))
    by (rewrite Hlk2, String.eqb_refl; reflexivity).
  exists m1, m2. repeat (split; [assumption|]). split.
  - exists m3. split; [exact Hrun3|].
    rewrite !Hlk3, String.eqb_refl, N21. auto.
  - exists m4. split; [exact Hrun4|].
    rewrite !Hlk4, String.eqb_refl, N12. auto.
Qed.

(** C8. Shape: in a map built from the empty map by inserts and removes,
    every Internal node reachable from the root has as many children as
    [popcount] counts bits in its bitmap and a nonzero bitmap, and every
    Leaf reachable from the root holds at least one entry. *)
Theorem nodes_well_shaped hamt (r n : HAMTNode V) :
  reachable hamt -> root hamt = Some r -> node_in n r ->
  match n with
  | Leaf l => entries l <> []
  | Internal bitmap children =>
      Z.of_nat (List.length children) = popcount bitmap /\ bitmap <> 0
  end.
Proof.
  intros Hr Hroot Hin. pose proof (reachable_wf _ Hr) as Hwf.
  unfold wf in Hwf. rewrite Hroot in Hwf. destruct Hwf as [Hwf _].
  destruct (wf_node_in n r Hin 0 0 Hwf) as (d & p & Hn).
  inversion Hn as [? ? ? _ Hne _ _ _|? ? ? ? _ _ Hne Hlen _]; subst.
  - exact Hne.
  - rewrite popcount_spec, Hlen. split; [reflexivity|].
    intros ->. rewrite bitcount_zero in Hlen.
    destruct children; [contradiction|discriminate].
Qed.

End Laws.

Section Merging.
Context {V : Type}.

Lemma bitpos_range (h s : Z) : 0 <= bitpos h s < 2^32.
Proof.
  rewrite bitpos_spec. pose proof (maskHash_range h s).
  split; [apply Z.pow_nonneg; lia | apply Z.pow_lt_mono_r; lia].
Qed.

(** C9. [mergeLeaves] on a Leaf and a new key with a different 32-bit
    hash.  The branch bits are unsigned powers of two of the 5-bit slices.
    When they differ, the result is the two-child Internal node whose bitmap
    is the union of the two bits and whose slot 0 holds the child with the
    lower bit.  When they coincide, the result is the one-child Internal
    node with that bit as bitmap, around the result of the merge one level
    deeper, at [shift + 5]. *)
Theorem mergeLeaves_shape (shift : Z) (node : LeafNode V) (h : Z)
    (key : string) (value : V) :
  0 <= leaf_hash node < 2^32 -> 0 <= h < 2^32 -> leaf_hash node <> h ->
  let bit1 := bitpos (leaf_hash node) shift in
  let bit2 := bitpos h shift in
  let newLeaf := Leaf (createLeaf h key value) in
  (bit1 = 2 ^ maskHash (leaf_hash node) shift /\ bit2 = 2 ^ maskHash h shift
   /\ 0 <= bit1 < 2^32 /\ 0 <= bit2 < 2^32)
  /\ (bit1 <> bit2 ->
      (forall fuel,
          mergeLeaves (S fuel) shift node h key value
          = Ok (Internal (JS.or bit1 bit2)
                  (if bit1 <? bit2 then [Leaf node; newLeaf] else [newLeaf; Leaf node])))
      /\ (forall i, 0 <= i < 32 ->
            Z.testbit (JS.or bit1 bit2) i = Z.testbit bit1 i || Z.testbit bit2 i))
  /\ (bit1 = bit2 ->
      exists inner,
        (forall fuel, (32 <= fuel)%nat ->
            mergeLeaves fuel (shift + 5) node h key value = Ok inner)
        /\ (forall fuel, (33 <= fuel)%nat ->
               mergeLeaves fuel shift node h key value = Ok (Internal bit1 [inner]))).
Proof.
  intros H1 H2 Hne bit1 bit2 newLeaf. split; [|split].
  - unfold bit1, bit2. rewrite <- !bitpos_spec. auto using bitpos_range.
  - intros Hbits. split.
    + intros fuel. rewrite mergeLeaves_S. fold bit1 bit2.
      destruct (Z.eqb_spec bit1 bit2); [contradiction|reflexivity].
    + intros i Hi. unfold JS.or.
      rewrite Z.lor_spec, !testbit_ToInt32 by assumption. reflexivity.
  - intros Hbits.
    destruct (mergeLeaves_terminates node h key value (shift + 5) H1 H2 Hne)
      as [inner Hinner].
    exists inner. split; [exact Hinner|].
    intros [|fuel] Hfuel; [lia|].
    rewrite mergeLeaves_S. fold bit1 bit2.
    rewrite Hbits, Z.eqb_refl, Hinner by lia. reflexivity.
Qed.


End Merging.

(** * The laws on sample maps *)

Lemma insert_all_reachable {V : Type} (fuel : nat) (l : list (string * V)) :
  forall hamt hamt',
    reachable hamt -> insert_all fuel l hamt = Ok hamt' -> reachable hamt'.
Proof.
  induction l as [|[k v] l IH]; intros hamt hamt' Hr H; cbn [insert_all] in H.
  - injection H as <-. exact Hr.
  - destruct (insert fuel hamt k v) as [m1| |] eqn:E; try discriminate.
    cbn [bind] in H. apply (IH m1 hamt'); [|exact H].
    apply (reach_insert fuel hamt k v m1 Hr E).
Qed.

Lemma sample_reachable : reachable sample.
Proof.
  apply (insert_all_reachable 7
           [("key1", 1); ("key2", 2); ("Aa", 3); ("key3", 4)]%string empty);
    [apply reach_empty | vm_compute; reflexivity].
Defined.

Lemma insert_then_lookup_witness :
  reachable sample /\ (7 <= 7)%nat
  /\ exists hamt', insert 7 sample "BB" 5 = Ok hamt' /\ lookup hamt' "BB" = Ok (Some 5).
Proof.
  split; [exact sample_reachable|]. split; [lia|].
  apply (insert_then_lookup sample "BB" 5 7); [exact sample_reachable | lia].
Defined.

Lemma remove_then_lookup_witness :
  reachable sample /\ (7 <= 7)%nat
  /\ exists hamt1 hamt2,
       insert 7 sample "BB" 5 = Ok hamt1
       /\ remove hamt1 "BB" = Ok hamt2 /\ lookup hamt2 "BB" = Ok None.
Proof.
  split; [exact sample_reachable|]. split; [lia|].
  apply (remove_then_lookup sample "BB" 5 7); [exact sample_reachable | lia].
Defined.

Lemma size_counts_keys_witness :
  reachable sample
  /\ size sample = Z.of_nat (List.length (bindings sample))
  /\ NoDup (map fst (bindings sample)).
Proof.
  split; [exact sample_reachable|].
  destruct (size_counts_keys sample sample_reachable) as (H1 & H2 & _).
  split; assumption.
Defined.

Lemma other_keys_unchanged_witness :
  reachable sample /\ "key1"%string <> "key2"%string /\ (7 <= 7)%nat
  /\ (exists hamt1,
         insert 7 sample "key2" 9 = Ok hamt1
         /\ lookup hamt1 "key1" = lookup sample "key1")
  /\ (exists hamt2,
         remove sample "key2" = Ok hamt2
         /\ lookup hamt2 "key1" = lookup sample "key1").
Proof.
  split; [exact sample_reachable|]. split; [discriminate|]. split; [lia|].
  apply (other_keys_unchanged sample "key2" "key1" 9 7);
    [exact sample_reachable | discriminate | lia].
Defined.

Lemma overwrite_witness :
  reachable sample /\ (7 <= 7)%nat
  /\ exists hamt1 hamt2,
       insert 7 sample "key1" 10 = Ok hamt1
       /\ insert 7 hamt1 "key1" 11 = Ok hamt2
       /\ lookup hamt2 "key1" = Ok (Some 11)
       /\ size hamt2 = size hamt1.
Proof.
  split; [exact sample_reachable|]. split; [lia|].
  apply (overwrite sample "key1" 10 11 7); [exact sample_reachable | lia].
Defined.

Lemma remove_absent_witness :
  reachable sample /\ lookup sample "BB" = Ok None
  /\ exists hamt',
       remove sample "BB" = Ok hamt'
       /\ size hamt' = size sample
       /\ forall key', lookup hamt' key' = lookup sample key'.
Proof.
  split; [exact sample_reachable|]. split; [vm_compute; reflexivity|].
  apply (remove_absent sample "BB"); [exact sample_reachable | vm_compute; reflexivity].
Defined.

Lemma collision_handling_witness :
  reachable sample /\ "BB"%string <> "C#"%string /\ hash "BB" = hash "C#"
  /\ (7 <= 7)%nat
  /\ exists hamt1 hamt2,
       insert 7 sample "BB" 5 = Ok hamt1
       /\ insert 7 hamt1 "C#" 6 = Ok hamt2
       /\ lookup hamt2 "BB" = Ok (Some 5)
       /\ lookup hamt2 "C#" = Ok (Some 6)
       /\ (exists hamt3,
              remove hamt2 "BB" = Ok hamt3
              /\ lookup hamt3 "BB" = Ok None /\ lookup hamt3 "C#" = Ok (Some 6))
       /\ (exists hamt4,
              remove hamt2 "C#" = Ok hamt4
              /\ lookup hamt4 "C#" = Ok None /\ lookup hamt4 "BB" = Ok (Some 5)).
Proof.
  split; [exact sample_reachable|]. split; [discriminate|].
  split; [vm_compute; reflexivity|]. split; [lia|].
  apply (collision_handling sample "BB" "C#" 5 6 7);
    [exact sample_reachable | discriminate | vm_compute; reflexivity | lia].
Defined.

Lemma nodes_well_shaped_witness :
  reachable sample /\ root sample = Some sample_root /\ node_in sample_root sample_root
  /\ match sample_root with
     | Leaf l => entries l <> []
     | Internal bitmap children =>
         Z.of_nat (List.length children) = popcount bitmap /\ bitmap <> 0
     end.
Proof.
  split; [exact sample_reachable|]. split; [vm_compute; reflexivity|].
  split; [apply node_in_self|].
  apply (nodes_well_shaped sample sample_root sample_root);
    [exact sample_reachable | vm_compute; reflexivity | apply node_in_self].
Defined.

Lemma mergeLeaves_shape_witness :
  0 <= leaf_hash (createLeaf (hash "key1") "key1" 1) < 2^32
  /\ 0 <= hash "key2" < 2^32
  /\ leaf_hash (createLeaf (hash "key1") "key1" 1) <> hash "key2"
  /\ forall fuel,
       mergeLeaves (S fuel) 0 (createLeaf (hash "key1") "key1" 1) (hash "key2") "key2" 2
       = Ok (Internal (JS.or (bitpos (hash "key1") 0) (bitpos (hash "key2") 0))
               (if bitpos (hash "key1") 0 <? bitpos (hash "key2") 0
                then [Leaf (createLeaf (hash "key1") "key1" 1);
                      Leaf (createLeaf (hash "key2") "key2" 2)]
                else [Leaf (createLeaf (hash "key2") "key2" 2);
                      Leaf (createLeaf (hash "key1") "key1" 1)])).
Proof.
  assert (H1 : 0 <= leaf_hash (createLeaf (hash "key1") "key1" 1) < 2^32)
    by exact (hash_range "key1").
  assert (H2 : 0 <= hash "key2" < 2^32) by exact (hash_range "key2").
  assert (H3 : leaf_hash (createLeaf (hash "key1") "key1" 1) <> hash "key2")
    by (vm_compute; discriminate).
  split; [exact H1|]. split; [exact H2|]. split; [exact H3|].
  destruct (mergeLeaves_shape 0 (createLeaf (hash "key1") "key1" 1) (hash "key2")
              "key2" 2 H1 H2 H3) as (_ & Hdiff & _).
  apply Hdiff. vm_compute. discriminate.
Defined.


(** * Further properties of the hashing and indexing functions *)

Lemma ToInt32_congr (x y : Z) : x mod 2^32 = y mod 2^32 -> JS.ToInt32 x = JS.ToInt32 y.
Proof.
  intros E. unfold JS.ToInt32.
  rewrite (Z.add_mod x), (Z.add_mod y), E by lia. reflexivity.
Qed.

Lemma JS_or_zero (x : Z) : JS.or x 0 = JS.ToInt32 x.
Proof. unfold JS.or. rewrite (ToInt32_small 0) by lia. apply Z.lor_0_r. Qed.

Lemma JS_imul_mod (a c : Z) : JS.imul a c mod 2^32 = (a * c) mod 2^32.
Proof.
  unfold JS.imul. rewrite ToInt32_mod.
  rewrite Z.mul_mod, !ToInt32_mod, <- Z.mul_mod by lia. reflexivity.
Qed.

Lemma hash_loop_cons (c : ascii) (rest : string) (h : Z) :
  hash_loop (String c rest) h = hash_loop rest (JS.or (JS.imul 31 h + charCode c) 0).
Proof. reflexivity. Qed.

Lemma hash_loop_poly31 (key : string) :
  forall a, hash_loop key (JS.ToInt32 a) = JS.ToInt32 (poly31 key a).
Proof.
  induction key as [|c rest IH]; intros a; [reflexivity|].
  rewrite hash_loop_cons. cbn [poly31].
  rewrite <- IH. f_equal. rewrite JS_or_zero.
  apply ToInt32_congr.
  assert (H : JS.imul 31 (JS.ToInt32 a) mod 2^32 = (31 * a) mod 2^32).
  { rewrite JS_imul_mod.
    rewrite <- Z.mul_mod_idemp_r, ToInt32_mod, Z.mul_mod_idemp_r by lia.
    reflexivity. }
  rewrite <- Z.add_mod_idemp_l, H, Z.add_mod_idemp_l by lia.
  reflexivity.
Qed.

(** Two numbers with the same low 32 bits. *)
Lemma eq32_bits (a b : Z) :
  a mod 2^32 = b mod 2^32 <->
  forall i, 0 <= i < 32 -> Z.testbit a i = Z.testbit b i.
Proof.
  split.
  - intros E i Hi.
    rewrite <- (Z.mod_pow2_bits_low a 32 i), <- (Z.mod_pow2_bits_low b 32 i), E by lia.
    reflexivity.
  - intros H. apply Z.bits_inj'. intros i Hi.
    destruct (Z.ltb_spec i 32).
    + rewrite !Z.mod_pow2_bits_low by lia. apply H. lia.
    + rewrite !Z.mod_pow2_bits_high by lia. reflexivity.
Qed.

Lemma testbit_xorshift (h s i : Z) :
  0 < s < 32 -> 0 <= i < 32 ->
  Z.testbit (JS.xor h (JS.ushr h s)) i
  = xorb (Z.testbit h i) (if i + s <? 32 then Z.testbit h (i + s) else false).
Proof.
  intros Hs Hi. unfold JS.xor.
  rewrite Z.lxor_spec, !testbit_ToInt32, JS_ushr_spec by lia.
  rewrite Z.div_pow2_bits by lia.
  destruct (Z.ltb_spec (i + s) 32).
  - rewrite Z.mod_pow2_bits_low by lia. reflexivity.
  - rewrite Z.mod_pow2_bits_high by lia. reflexivity.
Qed.

(** [h ^ (h >>> s)] loses nothing of the low 32 bits of [h]. *)
Lemma xorshift_inj (a b s : Z) :
  0 < s < 32 ->
  JS.xor a (JS.ushr a s) mod 2^32 = JS.xor b (JS.ushr b s) mod 2^32 ->
  a mod 2^32 = b mod 2^32.
Proof.
  intros Hs E. rewrite eq32_bits in E. apply eq32_bits.
  assert (Hdown : forall n : nat, forall i, 32 - Z.of_nat n <= i < 32 -> 0 <= i ->
            Z.testbit a i = Z.testbit b i).
  { induction n as [|n IH]; intros i Hi Hi0; [lia|].
    specialize (E i ltac:(lia)).
    rewrite !testbit_xorshift in E by lia.
    destruct (Z.ltb_spec (i + s) 32).
    - rewrite (IH (i + s)) in E by lia.
      destruct (Z.testbit a i), (Z.testbit b i), (Z.testbit b (i + s));
        cbn in E; congruence.
    - rewrite !xorb_false_r in E. exact E. }
  intros i Hi. apply (Hdown 32%nat); lia.
Qed.

(** [Math.imul] by a constant that has an inverse modulo 2^32. *)
Lemma imul_inj (a b c c' : Z) :
  (c * c') mod 2^32 = 1 ->
  JS.imul a c mod 2^32 = JS.imul b c mod 2^32 ->
  a mod 2^32 = b mod 2^32.
Proof.
  intros Hinv E. rewrite !JS_imul_mod in E.
  assert (H : forall x, x mod 2^32 = ((x * c) mod 2^32 * c') mod 2^32).
  { intros x. rewrite Z.mul_mod_idemp_l, <- Z.mul_assoc by lia.
    rewrite <- Z.mul_mod_idemp_r, Hinv, Z.mul_1_r by lia. reflexivity. }
  rewrite (H a), (H b), E. reflexivity.
Qed.

Lemma JS_ushr_zero (x : Z) : JS.ushr x 0 = x mod 2^32.
Proof. rewrite JS_ushr_spec by lia. change (2^0) with 1. apply Z.div_1_r. Qed.


(** X2. The loop of [hash], which wraps to a signed 32-bit integer at every
    character, computes the 31-polynomial of the character codes wrapped
    once at the end. *)
Theorem hash_loop_is_polynomial (key : string) :
  hash_loop key 0 = JS.ToInt32 (poly31 key 0).
Proof. apply (hash_loop_poly31 key 0). Qed.

(** X3. The finisher of [hash] adds no collision: two keys have the same
    hash exactly when their 31-polynomials agree modulo 2^32; and a hash
    is an unsigned 32-bit integer. *)
Theorem hash_collisions (k1 k2 : string) :
  (hash k1 = hash k2 <-> poly31 k1 0 mod 2^32 = poly31 k2 0 mod 2^32)
  /\ 0 <= hash k1 < 2^32.
Proof.
  split; [|apply hash_range]. split.
  - unfold hash. cbv zeta. intros E.
    rewrite !JS_ushr_zero in E.
    apply (xorshift_inj _ _ 16 ltac:(lia)) in E.
    apply (imul_inj _ _ 0xc2b2ae35 0x7ed1b41d eq_refl) in E.
    apply (xorshift_inj _ _ 13 ltac:(lia)) in E.
    apply (imul_inj _ _ 0x85ebca6b 0xa5cb9243 eq_refl) in E.
    apply (xorshift_inj _ _ 16 ltac:(lia)) in E.
    rewrite !(hash_loop_poly31 _ 0), !ToInt32_mod in E. exact E.
  - intros E. unfold hash. cbv zeta.
    rewrite !(hash_loop_poly31 _ 0), (ToInt32_congr _ _ E). reflexivity.
Qed.


(** * Further properties of the node functions *)

Section NodeExtras.
Context {V : Type}.

(** X5. [mergeLeaves] called with the hash of the Leaf itself never
    returns: the two branch bits coincide at every level, so each call
    makes the next one, whatever the fuel.  [updateLeafNode] is what keeps
    equal hashes away from it. *)
Theorem mergeLeaves_equal_hashes_diverges (fuel : nat) (shift : Z)
    (node : LeafNode V) (key : string) (value : V) :
  mergeLeaves fuel shift node (leaf_hash node) key value = OutOfFuel
  /\ exists r, updateLeafNode 0 node (leaf_hash node) shift key value = Ok r.
Proof.
  split.
  - revert shift. induction fuel as [|fuel IH]; intros shift; [reflexivity|].
    rewrite mergeLeaves_S, Z.eqb_refl, IH. reflexivity.
  - unfold updateLeafNode. rewrite Z.eqb_refl. destruct (negb _); eauto.
Qed.

(** X6. Whatever the shift and the Leaf, the subtree that [mergeLeaves]
    returns answers a lookup at that shift with the new value for the new
    hash and key, with nothing for another key under the new hash, and as
    the Leaf alone did for every other hash. *)
Theorem mergeLeaves_lookup (fuel : nat) (node : LeafNode V) (h : Z)
    (key : string) (value : V) :
  forall shift merged,
    mergeLeaves fuel shift node h key value = Ok merged ->
    forall h' key',
      lookupNode merged h' shift key'
      = Ok (if h' =? h
            then if (key' =? key)%string then Some value else None
            else lookupLeafNode node h' key').
Proof.
  induction fuel as [|fuel IH]; intros shift merged Hrun h' key'; [discriminate|].
  rewrite mergeLeaves_S in Hrun.
  pose proof (maskHash_range (leaf_hash node) shift) as Hm1.
  pose proof (maskHash_range h shift) as Hm2.
  pose proof (maskHash_range h' shift) as Hm'.
  destruct (Z.eqb_spec (bitpos (leaf_hash node) shift) (bitpos h shift)) as [Eb|Nb].
  - apply bitpos_inj in Eb.
    destruct (mergeLeaves fuel (shift + 5) node h key value) as [inner| |] eqn:Hin;
      try discriminate.
    cbn [bind] in Hrun. injection Hrun as <-.
    unfold createInternal. rewrite bitpos_spec.
    destruct (child_at_single (maskHash (leaf_hash node) shift) inner Hm1) as [Hlen Hat].
    rewrite lookupNode_child, Hat by assumption.
    destruct (Z.eqb_spec (maskHash h' shift) (maskHash (leaf_hash node) shift))
      as [E|NE].
    + apply (IH _ _ Hin).
    + f_equal. destruct (Z.eqb_spec h' h) as [->|]; [congruence|].
      symmetry. apply (lookupLeaf_mask_ne node h' shift). exact NE.
  - assert (Hmne : maskHash (leaf_hash node) shift <> maskHash h shift).
    { intros E. apply Nb. rewrite !bitpos_spec, E. reflexivity. }
    injection Hrun as <-. unfold createInternal.
    rewrite bitpos_lt, !bitpos_spec.
    destruct (child_at_pair _ _ (Leaf node) (Leaf (createLeaf h key value))
                Hm1 Hm2 Hmne) as [Hlen Hat].
    rewrite lookupNode_child, Hat by assumption.
    destruct (Z.eqb_spec (maskHash h' shift) (maskHash h shift)) as [E2|NE2].
    + cbn [lookupNode]. f_equal. unfold lookupLeafNode at 1.
      cbn [createLeaf leaf_hash entries find]. unfold key_is. cbn [fst].
      rewrite (Z.eqb_sym h h'), (String.eqb_sym key key').
      destruct (Z.eqb_spec h' h) as [->|].
      * destruct (key' =? key)%string; reflexivity.
      * symmetry. apply (lookupLeaf_mask_ne node h' shift). congruence.
    + destruct (Z.eqb_spec h' h) as [->|]; [congruence|].
      destruct (Z.eqb_spec (maskHash h' shift) (maskHash (leaf_hash node) shift))
        as [E1|NE1]; [reflexivity|].
      f_equal. symmetry. apply (lookupLeaf_mask_ne node h' shift). exact NE1.
Qed.


(** X8. An Internal node with fewer children than its bitmap announces is
    not answered wrongly: when the bit of the hash is set and its slot lies
    beyond the children array, lookup, update and removal all throw. *)
Theorem short_children_throw (fuel : nat) (bitmap : Z) (children : list (HAMTNode V))
    (h shift : Z) (key : string) (value : V) :
  JS.and bitmap (bitpos h shift) <> 0 ->
  (List.length children <= Z.to_nat (popcount (JS.and bitmap (bitpos h shift - 1))))%nat ->
  lookupNode (Internal bitmap children) h shift key = TypeError
  /\ updateNode fuel (Internal bitmap children) h shift key value = TypeError
  /\ removeNode (Internal bitmap children) h shift key = TypeError.
Proof.
  intros Hbit Hlen.
  apply Z.eqb_neq in Hbit. rewrite bit_test in Hbit.
  apply negb_false_iff in Hbit. rewrite idx_rank in Hlen.
  apply nth_error_None in Hlen.
  rewrite lookupNode_Internal, updateNode_Internal, removeNode_Internal, Hbit, Hlen.
  auto.
Qed.

(** X9. Removal never collapses a level: the result of [removeNode] on an
    Internal node is absent or again an Internal node, also when a single
    child is left. *)
Theorem removeNode_keeps_internal (bitmap : Z) (children : list (HAMTNode V))
    (h shift : Z) (key : string) (r : option (HAMTNode V)) (deleted : bool) :
  removeNode (Internal bitmap children) h shift key = Ok (r, deleted) ->
  r = None \/ exists bitmap' children', r = Some (Internal bitmap' children').
Proof.
  rewrite removeNode_Internal. intros Hrun.
  destruct (Z.testbit bitmap (maskHash h shift)).
  - destruct (nth_error children _) as [c|]; [|discriminate].
    destruct (removeNode c h (shift + 5) key) as [[rc del]| |]; try discriminate.
    cbn [bind] in Hrun. destruct del; cbn [negb] in Hrun.
    + destruct rc.
      * injection Hrun as <- _. eauto.
      * destruct (_ =? 0); injection Hrun as <- _; eauto.
    + injection Hrun as <- _. eauto.
  - injection Hrun as <- _. eauto.
Qed.

End NodeExtras.

(** * Further laws of the map operations *)

Section MapExtras.
Context {V : Type}.
Implicit Types (hamt : HAMT V) (key : string) (value : V).

Lemma wf_nonempty (node : HAMTNode V) :
  forall d p, wf_node d p node -> toList node <> [].
Proof.
  induction node as [l|bitmap children IH] using HAMTNode_ind'; intros d p Hwf.
  - inversion Hwf; subst. assumption.
  - inversion Hwf as [|? ? ? ? Hd Hrg Hne Hlen Hch]; subst.
    destruct children as [|c cs]; [contradiction|].
    destruct (child_at_cover bitmap (c :: cs) Hlen 0%nat c eq_refl) as (m & Hm & _ & Hat).
    inversion IH as [|? ? IHc _]; subst.
    pose proof (IHc (S d) _ (Hch m c Hm Hat)) as Hc.
    cbn [toList map List.concat]. intros E. apply app_eq_nil in E as [E _]. auto.
Qed.

Lemma wf_no_bindings hamt :
  wf hamt -> (forall key, lookup hamt key = Ok None) -> hamt = empty.
Proof.
  intros Hwf Hnone. pose proof (fun k v => lookup_bindings hamt k v Hwf) as Hmem.
  unfold wf, bindings in *. destruct hamt as [[node|] sz]; cbn [root size] in *.
  - exfalso. destruct Hwf as [Hwf _].
    pose proof (wf_nonempty node 0 0 Hwf) as Hne.
    destruct (toList node) as [|[k v] es]; [contradiction|].
    pose proof (proj2 (Hmem k v) (or_introl eq_refl)) as H.
    rewrite Hnone in H. discriminate.
  - unfold empty. f_equal. exact Hwf.
Qed.

Lemma lookup_absent_key hamt key :
  wf hamt -> ~ In key (map fst (bindings hamt)) -> lookup hamt key = Ok None.
Proof.
  intros Hwf Hnotin. destruct (lookup_total hamt key Hwf) as [[v|] Ho]; [|exact Ho].
  exfalso. apply Hnotin. apply (lookup_bindings hamt key v Hwf) in Ho.
  apply (in_map fst) in Ho. exact Ho.
Qed.

Lemma remove_all_spec (l : list string) :
  forall hamt,
    wf hamt ->
    exists hamt',
      remove_all l hamt = Ok hamt' /\ wf hamt'
      /\ forall key, lookup hamt' key
                     = if existsb (String.eqb key) l then Ok None else lookup hamt key.
Proof.
  induction l as [|k l IH]; intros hamt Hwf.
  - exists hamt. cbn. auto.
  - destruct (remove_spec hamt k Hwf) as (m1 & Hrun & Hwf1 & Hlk & _).
    destruct (IH m1 Hwf1) as (m' & Hrun' & Hwf' & Hlk').
    exists m'. cbn [remove_all]. rewrite Hrun. cbn [bind].
    split; [exact Hrun'|]. split; [exact Hwf'|].
    intros key. rewrite Hlk', Hlk. cbn [existsb].
    destruct (key =? k)%string, (existsb (String.eqb key) l); reflexivity.
Qed.

(** X10. On a map built from the empty map, [lookup] and [remove] return
    for every key: no access to a missing child is ever made. *)
Theorem reachable_never_throws hamt key :
  reachable hamt ->
  (exists o, lookup hamt key = Ok o)
  /\ (exists hamt', remove hamt key = Ok hamt').
Proof.
  intros Hr. pose proof (reachable_wf _ Hr) as Hwf. split.
  - apply lookup_total. exact Hwf.
  - destruct (remove_spec hamt key Hwf) as (m' & Hrun & _). eauto.
Qed.

(** X11. Size bookkeeping: [insert] adds one to [size] exactly when the key
    was absent, [remove] takes one away exactly when it was present, and
    the floor at 0 in [remove] is never what decides the result. *)
Theorem size_follows_lookup hamt key value (fuel : nat) :
  reachable hamt -> (7 <= fuel)%nat ->
  exists hamt1 hamt2,
    insert fuel hamt key value = Ok hamt1
    /\ remove hamt key = Ok hamt2
    /\ size hamt1 = size hamt + (match lookup hamt key with Ok None => 1 | _ => 0 end)
    /\ size hamt2 = size hamt - (match lookup hamt key with Ok None => 0 | _ => 1 end)
    /\ 0 <= size hamt - (match lookup hamt key with Ok None => 0 | _ => 1 end).
Proof.
  intros Hr Hfuel. pose proof (reachable_wf _ Hr) as Hwf.
  destruct (insert_spec fuel hamt key value Hwf Hfuel) as (m1 & Hrun1 & _ & _ & Hs1).
  destruct (remove_spec hamt key Hwf) as (m2 & Hrun2 & Hwf2 & _ & Hsame & Hs2).
  exists m1, m2. split; [exact Hrun1|]. split; [exact Hrun2|]. split; [exact Hs1|].
  pose proof (wf_size_nonneg _ Hwf). pose proof (wf_size_nonneg _ Hwf2).
  destruct (lookup hamt key) as [[v|]| |] eqn:E.
  - rewrite <- Hs2 by discriminate. lia.
  - rewrite (Hsame eq_refl). lia.
  - rewrite <- Hs2 by discriminate. lia.
  - rewrite <- Hs2 by discriminate. lia.
Qed.

(** X12. Removing an absent key returns the very map it was given, root
    and size; so a second removal of the same key changes nothing. *)
Theorem remove_twice hamt key :
  reachable hamt ->
  (lookup hamt key = Ok None -> remove hamt key = Ok hamt)
  /\ exists hamt1, remove hamt key = Ok hamt1 /\ remove hamt1 key = Ok hamt1.
Proof.
  intros Hr. pose proof (reachable_wf _ Hr) as Hwf.
  destruct (remove_spec hamt key Hwf) as (m1 & Hrun1 & Hwf1 & Hlk1 & Hsame1 & _).
  split.
  - intros Hnone. rewrite <- (Hsame1 Hnone) at 2. exact Hrun1.
  - exists m1. split; [exact Hrun1|].
    destruct (remove_spec m1 key Hwf1) as (m2 & Hrun2 & _ & _ & Hsame2 & _).
    rewrite Hrun2. f_equal. apply Hsame2.
    rewrite Hlk1, String.eqb_refl. reflexivity.
Qed.

(** X13. Inserting a new key and removing it again gives a map with the
    size and the lookup results of the original one. *)
Theorem insert_then_remove_fresh hamt key value (fuel : nat) :
  reachable hamt -> lookup hamt key = Ok None -> (7 <= fuel)%nat ->
  exists hamt1 hamt2,
    insert fuel hamt key value = Ok hamt1
    /\ remove hamt1 key = Ok hamt2
    /\ size hamt2 = size hamt
    /\ forall key', lookup hamt2 key' = lookup hamt key'.
Proof.
  intros Hr Hnone Hfuel. pose proof (reachable_wf _ Hr) as Hwf.
  destruct (insert_spec fuel hamt key value Hwf Hfuel) as (m1 & Hrun1 & Hwf1 & Hlk1 & Hs1).
  destruct (remove_spec m1 key Hwf1) as (m2 & Hrun2 & _ & Hlk2 & _ & Hs2).
  exists m1, m2. split; [exact Hrun1|]. split; [exact Hrun2|]. split.
  - rewrite Hs2, Hs1, Hnone; [lia|]. rewrite Hlk1, String.eqb_refl. discriminate.
  - intros key'. rewrite Hlk2, Hlk1.
    destruct (String.eqb_spec key' key) as [->|]; [symmetry; exact Hnone | reflexivity].
Qed.

(** X14. Inserts of two different keys commute: either order gives maps
    of the same size with the same lookup result for every key. *)
Theorem insert_insert_commute hamt (k1 k2 : string) (v1 v2 : V) (fuel : nat) :
  reachable hamt -> k1 <> k2 -> (7 <= fuel)%nat ->
  exists a ab b ba,
    insert fuel hamt k1 v1 = Ok a /\ insert fuel a k2 v2 = Ok ab
    /\ insert fuel hamt k2 v2 = Ok b /\ insert fuel b k1 v1 = Ok ba
    /\ size ab = size ba
    /\ forall key, lookup ab key = lookup ba key.
Proof.
  intros Hr Hne Hfuel. pose proof (reachable_wf _ Hr) as Hwf.
  assert (N12 : (k1 =? k2)%string = false) by (apply String.eqb_neq; exact Hne).
  assert (N21 : (k2 =? k1)%string = false) by (apply String.eqb_neq; congruence).
  destruct (insert_spec fuel hamt k1 v1 Hwf Hfuel) as (a & Ha & Hwfa & Hla & Hsa).
  destruct (insert_spec fuel a k2 v2 Hwfa Hfuel) as (ab & Hab & _ & Hlab & Hsab).
  destruct (insert_spec fuel hamt k2 v2 Hwf Hfuel) as (b & Hb & Hwfb & Hlb & Hsb).
  destruct (insert_spec fuel b k1 v1 Hwfb Hfuel) as (ba & Hba & _ & Hlba & Hsba).
  exists a, ab, b, ba. repeat (split; [assumption|]). split.
  - rewrite Hsab, Hsba, Hsa, Hsb, Hla, Hlb, N12, N21. lia.
  - intros key. rewrite Hlab, Hlba, Hla, Hlb.
    destruct (String.eqb_spec key k2) as [->|]; [rewrite N21; reflexivity|].
    reflexivity.
Qed.

(** X15. A removal commutes with an insert or a removal of a different
    key: either order gives maps of the same size with the same lookup
    result for every key. *)
Theorem remove_commutes hamt (k1 k2 : string) (v1 : V) (fuel : nat) :
  reachable hamt -> k1 <> k2 -> (7 <= fuel)%nat ->
  (exists a ab b ba,
      insert fuel hamt k1 v1 = Ok a /\ remove a k2 = Ok ab
      /\ remove hamt k2 = Ok b /\ insert fuel b k1 v1 = Ok ba
      /\ size ab = size ba /\ forall key, lookup ab key = lookup ba key)
  /\ (exists c cd d dc,
         remove hamt k1 = Ok c /\ remove c k2 = Ok cd
         /\ remove hamt k2 = Ok d /\ remove d k1 = Ok dc
         /\ size cd = size dc /\ forall key, lookup cd key = lookup dc key).
Proof.
  intros Hr Hne Hfuel. pose proof (reachable_wf _ Hr) as Hwf.
  assert (N12 : (k1 =? k2)%string = false) by (apply String.eqb_neq; exact Hne).
  assert (N21 : (k2 =? k1)%string = false) by (apply String.eqb_neq; congruence).
  destruct (insert_spec fuel hamt k1 v1 Hwf Hfuel) as (a & Ha & Hwfa & Hla & Hsa).
  destruct (remove_spec a k2 Hwfa) as (ab & Hab & _ & Hlab & Hsame_ab & Hsab).
  destruct (remove_spec hamt k2 Hwf) as (b & Hb & Hwfb & Hlb & Hsame_b & Hsb).
  destruct (insert_spec fuel b k1 v1 Hwfb Hfuel) as (ba & Hba & _ & Hlba & Hsba).
  destruct (remove_spec hamt k1 Hwf) as (c & Hc & Hwfc & Hlc & Hsame_c & Hsc).
  destruct (remove_spec c k2 Hwfc) as (cd & Hcd & _ & Hlcd & Hsame_cd & Hscd).
  destruct (remove_spec b k1 Hwfb) as (dc & Hdc & _ & Hldc & Hsame_dc & Hsdc).
  split.
  - exists a, ab, b, ba. repeat (split; [assumption|]). split.
    + assert (E2 : lookup a k2 = lookup hamt k2) by (rewrite Hla, N21; reflexivity).
      assert (E1 : lookup b k1 = lookup hamt k1) by (rewrite Hlb, N12; reflexivity).
      rewrite E1 in Hsba.
      assert (Dab : size ab = size a
                             - match lookup hamt k2 with Ok None => 0 | _ => 1 end).
      { rewrite <- E2. destruct (lookup a k2) as [[v|]| |] eqn:E;
          try (rewrite Hsab by discriminate; lia).
        rewrite (Hsame_ab eq_refl). lia. }
      assert (Db : size b = size hamt
                            - match lookup hamt k2 with Ok None => 0 | _ => 1 end).
      { destruct (lookup hamt k2) as [[v|]| |] eqn:E;
          try (rewrite Hsb by discriminate; lia).
        rewrite (Hsame_b eq_refl). lia. }
      lia.
    + intros key. rewrite Hlab, Hlba, Hla, Hlb.
      destruct (String.eqb_spec key k2) as [->|]; [rewrite N21; reflexivity|].
      reflexivity.
  - exists c, cd, b, dc. repeat (split; [assumption|]). split.
    + assert (E2 : lookup c k2 = lookup hamt k2) by (rewrite Hlc, N21; reflexivity).
      assert (E1 : lookup b k1 = lookup hamt k1) by (rewrite Hlb, N12; reflexivity).
      assert (Dc : size c = size hamt
                            - match lookup hamt k1 with Ok None => 0 | _ => 1 end).
      { destruct (lookup hamt k1) as [[v|]| |] eqn:E;
          try (rewrite Hsc by discriminate; lia).
        rewrite (Hsame_c eq_refl). lia. }
      assert (Db : size b = size hamt
                            - match lookup hamt k2 with Ok None => 0 | _ => 1 end).
      { destruct (lookup hamt k2) as [[v|]| |] eqn:E;
          try (rewrite Hsb by discriminate; lia).
        rewrite (Hsame_b eq_refl). lia. }
      assert (Dcd : size cd = size c
                             - match lookup hamt k2 with Ok None => 0 | _ => 1 end).
      { rewrite <- E2. destruct (lookup c k2) as [[v|]| |] eqn:E;
          try (rewrite Hscd by discriminate; lia).
        rewrite (Hsame_cd eq_refl). lia. }
      assert (Ddc : size dc = size b
                             - match lookup hamt k1 with Ok None => 0 | _ => 1 end).
      { rewrite <- E1. destruct (lookup b k1) as [[v|]| |] eqn:E;
          try (rewrite Hsdc by discriminate; lia).
        rewrite (Hsame_dc eq_refl). lia. }
      lia.
    + intros key. rewrite Hlcd, Hldc, Hlc, Hlb.
      destruct (key =? k1)%string, (key =? k2)%string; reflexivity.
Qed.

(** X16. Removing every stored key, in any order and possibly along with
    other keys, gives back exactly the empty map: the root is pruned away
    and [size] is 0. *)
Theorem remove_all_empties hamt (l : list string) :
  reachable hamt ->
  (forall key, In key (map fst (bindings hamt)) -> In key l) ->
  remove_all l hamt = Ok empty.
Proof.
  intros Hr Hcover. pose proof (reachable_wf _ Hr) as Hwf.
  destruct (remove_all_spec l hamt Hwf) as (m' & Hrun & Hwf' & Hlk).
  rewrite Hrun. f_equal. apply wf_no_bindings; [exact Hwf'|].
  intros key. rewrite Hlk.
  destruct (existsb (String.eqb key) l) eqn:E; [reflexivity|].
  apply lookup_absent_key; [exact Hwf|].
  intros Hin. apply Hcover in Hin.
  assert (Hex : existsb (String.eqb key) l = true).
  { apply existsb_exists. exists key. split; [exact Hin | apply String.eqb_refl]. }
  congruence.
Qed.

(** X17. In a map built from the empty map the root is absent exactly when
    [size] is 0, and exactly when no key is stored; [size] is never
    negative. *)
Theorem root_absent_iff_empty hamt :
  reachable hamt ->
  (root hamt = None <-> size hamt = 0)
  /\ (root hamt = None <-> forall key, lookup hamt key = Ok None)
  /\ 0 <= size hamt.
Proof.
  intros Hr. pose proof (reachable_wf _ Hr) as Hwf.
  pose proof (wf_size_nonneg _ Hwf) as Hnn.
  pose proof (wf_no_bindings hamt Hwf) as Hempty.
  split; [|split; [|exact Hnn]].
  - unfold wf in Hwf. destruct (root hamt) as [node|].
    + destruct Hwf as [Hwf Hs]. pose proof (wf_nonempty node 0 0 Hwf) as Hne.
      split; [discriminate|]. intros E. exfalso. apply Hne.
      apply length_zero_iff_nil. lia.
    + tauto.
  - split.
    + intros E key. unfold lookup. rewrite E. reflexivity.
    + intros Hnone. rewrite (Hempty Hnone). reflexivity.
Qed.

(** X18. Every Leaf reachable from the root of a map built from the empty
    map stores the hash of each of its keys, and stores no key twice: a
    Leaf holds several entries only for keys whose hashes collide. *)
Theorem leaves_are_consistent hamt (r : HAMTNode V) (l : LeafNode V) :
  reachable hamt -> root hamt = Some r -> node_in (Leaf l) r ->
  (forall e, In e (entries l) -> hash (fst e) = leaf_hash l)
  /\ NoDup (map fst (entries l))
  /\ (forall e e', In e (entries l) -> In e' (entries l) -> hash (fst e) = hash (fst e')).
Proof.
  intros Hr Hroot Hin. pose proof (reachable_wf _ Hr) as Hwf.
  unfold wf in Hwf. rewrite Hroot in Hwf. destruct Hwf as [Hwf _].
  destruct (wf_node_in (Leaf l) r Hin 0 0 Hwf) as (d & p & Hl).
  inversion Hl as [? ? ? _ _ Hnd Hh _|]; subst.
  split; [exact Hh|]. split; [exact Hnd|].
  intros e e' He He'. rewrite (Hh e He), (Hh e' He'). reflexivity.
Qed.

End MapExtras.

Section Building.
Context {V : Type}.

Lemma find_key_In (l : list (string * V)) k v :
  NoDup (map fst l) ->
  In (k, v) l <-> exists e, find (key_is k) l = Some e /\ snd e = v.
Proof.
  intros Hnd. split.
  - intros Hin. destruct (find (key_is k) l) as [e|] eqn:Ef.
    + exists e. split; [reflexivity|].
      apply find_some in Ef as [He Hk]. apply key_is_true in Hk.
      destruct e as [k' v']. cbn in *. subst k'.
      apply (keys_functional l k); assumption.
    + exfalso. apply find_key_None in Ef. apply Ef.
      apply (in_map fst) in Hin. exact Hin.
  - intros (e & Ef & <-). apply find_some in Ef as [He Hk].
    apply key_is_true in Hk. destruct e as [k' v']. cbn in *. subst k'. exact He.
Qed.

Lemma insert_all_lookup (fuel : nat) (l : list (string * V)) :
  (7 <= fuel)%nat -> NoDup (map fst l) ->
  forall hamt : HAMT V,
    wf hamt ->
    exists hamt',
      insert_all fuel l hamt = Ok hamt'
      /\ forall key,
           lookup hamt' key
           = match find (key_is key) l with
             | Some e => Ok (Some (snd e))
             | None => lookup hamt key
             end.
Proof.
  intros Hfuel. induction l as [|[k v] l IH]; intros Hnd hamt Hwf.
  - exists hamt. cbn. auto.
  - cbn [map fst] in Hnd. inversion Hnd as [|? ? Hnotin Hnd']; subst.
    destruct (insert_spec fuel hamt k v Hwf Hfuel) as (m1 & Hrun & Hwf1 & Hlk & _).
    destruct (IH Hnd' m1 Hwf1) as (m' & Hrun' & Hlk').
    exists m'. cbn [insert_all]. rewrite Hrun. cbn [bind].
    split; [exact Hrun'|].
    intros key. rewrite Hlk', Hlk. cbn [find]. unfold key_is at 2. cbn [fst].
    rewrite (String.eqb_sym k key).
    destruct (String.eqb_spec key k) as [->|]; [|reflexivity].
    apply find_key_None in Hnotin. rewrite Hnotin. reflexivity.
Qed.

(** X19. A map built from the empty map by inserting a list of entries with
    pairwise distinct keys holds exactly those entries, and does not
    depend on their order: another list of the same entries gives a map of
    the same size with the same lookup result for every key. *)
Theorem build_order_irrelevant (fuel : nat) (l l' : list (string * V)) :
  (7 <= fuel)%nat -> NoDup (map fst l) -> NoDup (map fst l') ->
  (forall e, In e l <-> In e l') ->
  exists hamt hamt',
    insert_all fuel l empty = Ok hamt
    /\ insert_all fuel l' empty = Ok hamt'
    /\ (forall key value, lookup hamt key = Ok (Some value) <-> In (key, value) l)
    /\ size hamt = size hamt'
    /\ forall key, lookup hamt key = lookup hamt' key.
Proof.
  intros Hfuel Hnd Hnd' Hsame.
  assert (Hwf : wf (@empty V)) by reflexivity.
  destruct (insert_all_lookup fuel l Hfuel Hnd empty Hwf) as (m & Hrun & Hlk).
  destruct (insert_all_lookup fuel l' Hfuel Hnd' empty Hwf) as (m' & Hrun' & Hlk').
  destruct (insert_all_size fuel l Hfuel Hnd empty Hwf (fun _ _ => eq_refl))
    as (m0 & Hrun0 & Hsize).
  destruct (insert_all_size fuel l' Hfuel Hnd' empty Hwf (fun _ _ => eq_refl))
    as (m0' & Hrun0' & Hsize').
  rewrite Hrun in Hrun0. injection Hrun0 as <-.
  rewrite Hrun' in Hrun0'. injection Hrun0' as <-.
  assert (Hmem : forall (l0 : list (string * V)) m0,
            NoDup (map fst l0) ->
            (forall key, lookup m0 key
                         = match find (key_is key) l0 with
                           | Some e => Ok (Some (snd e))
                           | None => lookup empty key
                           end) ->
            forall key value, lookup m0 key = Ok (Some value) <-> In (key, value) l0).
  { intros l0 m0 Hnd0 Hlk0 key value. rewrite Hlk0, (find_key_In l0 key value Hnd0).
    destruct (find (key_is key) l0) as [e|].
    - split.
      + intros [= <-]. eauto.
      + intros (e' & [= <-] & <-). reflexivity.
    - split; [discriminate | intros (e' & He' & _); discriminate]. }
  exists m, m'. split; [exact Hrun|]. split; [exact Hrun'|].
  split; [exact (Hmem l m Hnd Hlk)|]. split.
  - rewrite Hsize, Hsize'. f_equal. f_equal.
    apply NoDup_map_inv in Hnd. apply NoDup_map_inv in Hnd'.
    apply Nat.le_antisymm; apply NoDup_incl_length; try assumption;
      intros e He; apply Hsame; exact He.
  - intros key.
    pose proof (Hmem l m Hnd Hlk key) as H1.
    pose proof (Hmem l' m' Hnd' Hlk' key) as H2.
    destruct (lookup m key) as [[v|]| |] eqn:E.
    + symmetry. apply H2, Hsame, H1. reflexivity.
    + destruct (lookup m' key) as [[v'|]| |] eqn:E'; try reflexivity.
      * pose proof (proj2 (H1 v') (proj2 (Hsame _) (proj1 (H2 v') eq_refl))). discriminate.
      * rewrite Hlk' in E'. destruct (find (key_is key) l'); discriminate.
      * rewrite Hlk' in E'. destruct (find (key_is key) l'); discriminate.
    + rewrite Hlk in E. destruct (find (key_is key) l); discriminate.
    + rewrite Hlk in E. destruct (find (key_is key) l); discriminate.
Qed.

End Building.

Lemma build_order_irrelevant_witness :
  (7 <= 7)%nat
  /\ NoDup (map fst [("Aa", 1); ("BB", 2); ("key1", 3)]%string)
  /\ NoDup (map fst [("key1", 3); ("Aa", 1); ("BB", 2)]%string)
  /\ (forall e, In e [("Aa", 1); ("BB", 2); ("key1", 3)]%string
                <-> In e [("key1", 3); ("Aa", 1); ("BB", 2)]%string)
  /\ exists hamt hamt',
       insert_all 7 [("Aa", 1); ("BB", 2); ("key1", 3)]%string empty = Ok hamt
       /\ insert_all 7 [("key1", 3); ("Aa", 1); ("BB", 2)]%string empty = Ok hamt'
       /\ size hamt = size hamt'
       /\ forall key, lookup hamt key = lookup hamt' key.
Proof.
  assert (N1 : NoDup (map fst [("Aa", 1); ("BB", 2); ("key1", 3)]%string)).
  { cbn [map fst]. repeat constructor; cbn [In]; intros H;
      repeat (destruct H as [H|H]; [discriminate H|]); exact H. }
  assert (N2 : NoDup (map fst [("key1", 3); ("Aa", 1); ("BB", 2)]%string)).
  { cbn [map fst]. repeat constructor; cbn [In]; intros H;
      repeat (destruct H as [H|H]; [discriminate H|]); exact H. }
  assert (S : forall e, In e [("Aa", 1); ("BB", 2); ("key1", 3)]%string
                        <-> In e [("key1", 3); ("Aa", 1); ("BB", 2)]%string)
    by (intros e; cbn [In]; tauto).
  split; [lia|]. split; [exact N1|]. split; [exact N2|]. split; [exact S|].
  destruct (build_order_irrelevant 7 _ _ (le_n 7) N1 N2 S)
    as (m & m' & H1 & H2 & _ & H3 & H4).
  exists m, m'. auto.
Defined.

(** * The further properties on sample inputs *)

(** Inserting and removing a key leaves the Internal node that the insert
    made: the map answers as before but is not the map it was. *)
Example insert_remove_keeps_level :
  (m <- insert 7 (@empty Z) "key1" 1 ;; m <- insert 7 m "key2" 2 ;; remove m "key2")
  = Ok {| root := Some (Internal 33554432 [Leaf (createLeaf (hash "key1") "key1" 1)]);
          size := 1 |}.
Proof. vm_compute. reflexivity. Qed.

Lemma mergeLeaves_lookup_witness :
  exists merged,
    mergeLeaves 1 0 (createLeaf (hash "key1") "key1" 1) (hash "key2") "key2" 2 = Ok merged
    /\ forall h' key',
         lookupNode merged h' 0 key'
         = Ok (if h' =? hash "key2"
               then if (key' =? "key2")%string then Some 2 else None
               else lookupLeafNode (createLeaf (hash "key1") "key1" 1) h' key').
Proof.
  destruct (mergeLeaves 1 0 (createLeaf (hash "key1") "key1" 1) (hash "key2") "key2" 2)
    as [merged| |] eqn:E.
  - exists merged. split; [reflexivity|].
    apply (mergeLeaves_lookup 1 _ _ _ _ 0 merged E).
  - exfalso. vm_compute in E. discriminate.
  - exfalso. vm_compute in E. discriminate.
Defined.


Lemma short_children_throw_witness :
  JS.and (-1) (bitpos (hash "key1") 0) <> 0
  /\ (List.length (@nil (HAMTNode Z))
      <= Z.to_nat (popcount (JS.and (-1) (bitpos (hash "key1") 0 - 1))))%nat
  /\ lookupNode (@Internal Z (-1) []) (hash "key1") 0 "key1" = TypeError
  /\ updateNode 7 (@Internal Z (-1) []) (hash "key1") 0 "key1" 1 = TypeError
  /\ removeNode (@Internal Z (-1) []) (hash "key1") 0 "key1" = TypeError.
Proof.
  assert (H1 : JS.and (-1) (bitpos (hash "key1") 0) <> 0) by (vm_compute; discriminate).
  assert (H2 : (List.length (@nil (HAMTNode Z))
                <= Z.to_nat (popcount (JS.and (-1) (bitpos (hash "key1") 0 - 1))))%nat)
    by (cbn [List.length]; lia).
  split; [exact H1|]. split; [exact H2|].
  apply (short_children_throw 7 (-1) [] (hash "key1") 0 "key1" 1 H1 H2).
Defined.

Lemma removeNode_keeps_internal_witness :
  removeNode (Internal 3 [Leaf (createLeaf 0 "a" 1); Leaf (createLeaf 1 "b" 2)]) 1 0 "b"
  = Ok (Some (Internal 1 [Leaf (createLeaf 0 "a" 1)]), true)
  /\ (Some (Internal 1 [Leaf (createLeaf 0 "a" 1)]) = None
      \/ exists bitmap' children',
           Some (Internal 1 [Leaf (createLeaf 0 "a" 1)])
           = Some (Internal bitmap' children')).
Proof.
  assert (E : removeNode
                (Internal 3 [Leaf (createLeaf 0 "a" 1); Leaf (createLeaf 1 "b" 2)])
                1 0 "b"
              = Ok (Some (Internal 1 [Leaf (createLeaf 0 "a" 1)]), true))
    by (vm_compute; reflexivity).
  split; [exact E|].
  apply (removeNode_keeps_internal _ _ _ _ _ _ _ E).
Defined.

Lemma reachable_never_throws_witness :
  reachable sample
  /\ (exists o, lookup sample "key1" = Ok o)
  /\ (exists hamt', remove sample "key1" = Ok hamt').
Proof.
  split; [exact sample_reachable|].
  apply (reachable_never_throws sample "key1" sample_reachable).
Defined.

Lemma size_follows_lookup_witness :
  reachable sample /\ (7 <= 7)%nat
  /\ exists hamt1 hamt2,
       insert 7 sample "BB" 5 = Ok hamt1
       /\ remove sample "BB" = Ok hamt2
       /\ size hamt1 = size sample + (match lookup sample "BB" with Ok None => 1 | _ => 0 end)
       /\ size hamt2 = size sample - (match lookup sample "BB" with Ok None => 0 | _ => 1 end)
       /\ 0 <= size sample - (match lookup sample "BB" with Ok None => 0 | _ => 1 end).
Proof.
  split; [exact sample_reachable|]. split; [lia|].
  apply (size_follows_lookup sample "BB" 5 7); [exact sample_reachable | lia].
Defined.

Lemma remove_twice_witness :
  reachable sample
  /\ exists hamt1, remove sample "key2" = Ok hamt1 /\ remove hamt1 "key2" = Ok hamt1.
Proof.
  split; [exact sample_reachable|].
  destruct (remove_twice sample "key2" sample_reachable) as [_ H]. exact H.
Defined.

Lemma insert_then_remove_fresh_witness :
  reachable sample /\ lookup sample "BB" = Ok None /\ (7 <= 7)%nat
  /\ exists hamt1 hamt2,
       insert 7 sample "BB" 5 = Ok hamt1
       /\ remove hamt1 "BB" = Ok hamt2
       /\ size hamt2 = size sample
       /\ forall key', lookup hamt2 key' = lookup sample key'.
Proof.
  split; [exact sample_reachable|]. split; [vm_compute; reflexivity|]. split; [lia|].
  apply (insert_then_remove_fresh sample "BB" 5 7);
    [exact sample_reachable | vm_compute; reflexivity | lia].
Defined.

Lemma insert_insert_commute_witness :
  reachable sample /\ "BB"%string <> "C#"%string /\ (7 <= 7)%nat
  /\ exists a ab b ba,
       insert 7 sample "BB" 5 = Ok a /\ insert 7 a "C#" 6 = Ok ab
       /\ insert 7 sample "C#" 6 = Ok b /\ insert 7 b "BB" 5 = Ok ba
       /\ size ab = size ba
       /\ forall key, lookup ab key = lookup ba key.
Proof.
  split; [exact sample_reachable|]. split; [discriminate|]. split; [lia|].
  apply (insert_insert_commute sample "BB" "C#" 5 6 7);
    [exact sample_reachable | discriminate | lia].
Defined.

Lemma remove_commutes_witness :
  reachable sample /\ "key1"%string <> "key2"%string /\ (7 <= 7)%nat
  /\ exists c cd d dc,
       remove sample "key1" = Ok c /\ remove c "key2" = Ok cd
       /\ remove sample "key2" = Ok d /\ remove d "key1" = Ok dc
       /\ size cd = size dc /\ forall key, lookup cd key = lookup dc key.
Proof.
  split; [exact sample_reachable|]. split; [discriminate|]. split; [lia|].
  destruct (remove_commutes sample "key1" "key2" 0 7 sample_reachable) as [_ H];
    [discriminate | lia | exact H].
Defined.

Lemma remove_all_empties_witness :
  reachable sample
  /\ (forall key, In key (map fst (bindings sample)) ->
                  In key ["key3"; "zz"; "Aa"; "key2"; "key1"]%string)
  /\ remove_all ["key3"; "zz"; "Aa"; "key2"; "key1"]%string sample = Ok empty.
Proof.
  assert (H : forall key, In key (map fst (bindings sample)) ->
                          In key ["key3"; "zz"; "Aa"; "key2"; "key1"]%string).
  { intros key Hin. vm_compute in Hin. cbn [In]. tauto. }
  split; [exact sample_reachable|]. split; [exact H|].
  apply (remove_all_empties sample _ sample_reachable H).
Defined.

Lemma root_absent_iff_empty_witness :
  reachable sample
  /\ (root sample = None <-> size sample = 0)
  /\ (root sample = None <-> forall key, lookup sample key = Ok None)
  /\ 0 <= size sample.
Proof.
  split; [exact sample_reachable|].
  apply (root_absent_iff_empty sample sample_reachable).
Defined.

Lemma leaves_are_consistent_witness :
  reachable sample /\ root sample = Some sample_root
  /\ node_in (Leaf (createLeaf (hash "key1") "key1" 1)) sample_root
  /\ (forall e, In e [("key1"%string, 1)] -> hash (fst e) = hash "key1")
  /\ NoDup (map fst [("key1"%string, 1)]).
Proof.
  assert (Hroot : root sample = Some sample_root) by (vm_compute; reflexivity).
  assert (Hin : node_in (Leaf (createLeaf (hash "key1") "key1" 1)) sample_root).
  { vm_compute. eapply node_in_child; [|apply node_in_self].
    cbn [In]. tauto. }
  split; [exact sample_reachable|]. split; [exact Hroot|]. split; [exact Hin|].
  destruct (leaves_are_consistent sample sample_root _ sample_reachable Hroot Hin)
    as (H1 & H2 & _).
  split; [exact H1 | exact H2].
Defined.
